(** * db-plumbing: the in-memory document store and its REST client

    A shallow embedding of the two [Store] classes of the repository:
    the [Map]-backed store of [db-plumbing-map] and the [fetch]-backed store
    of [db-plumbing-rest] (src/store.js), with the [Client] that builds the
    requests.

    JavaScript objects live in a heap indexed by locations, so that the
    sharing the code relies on (documents stored by reference, the arrays
    built by [all], the client and the index map shared by their stores)
    is visible. *)

From Stdlib Require Import ZArith Sorted.
From stdpp Require Import gmap strings list pretty.

Local Open Scope Z_scope.

(** ** JavaScript values *)

Definition loc := positive.

(** Numbers are restricted to the integers: the keys and fields the stores
    handle are identifiers and counts.  On this domain [===] and the
    SameValueZero comparison of [Map] keys coincide with equality. *)
Inductive val : Type :=
| VUndefined
| VNull
| VBool (b : bool)
| VNum (n : Z)
| VStr (s : string)
| VRef (l : loc).

Global Instance val_eq_dec : EqDecision val.
Proof. solve_decision. Defined.

(** Heap-allocated objects: plain objects (and class instances) with their
    own properties in insertion order, arrays, and ES6 [Map]s with their
    entries in insertion order. *)
Inductive hobj : Type :=
| HObject (props : list (string * val))
| HArray (elems : list val)
| HMap (entries : list (val * val)).

Abbreviation heap := (gmap loc hobj).

(** [Error] values that the stores throw or reject with.
    [DoesNotExist key] is [class DoesNotExist extends Error]: its message
    is determined by [key], which it also keeps in its [key] field.
    [JsError message] is [new Error(message)]; [Raised e] is an error of
    another party (the patch engine, the JSON parser, the network). *)
Inductive error : Type :=
| DoesNotExist (key : val)
| JsError (message : string)
| TypeError
| Raised (e : val).

Inductive completion (A : Type) : Type :=
| Normal (a : A)
| Throw (e : error).
Arguments Normal {A} a.
Arguments Throw {A} e.

Definition bind {A B : Type} (c : completion A) (f : A -> completion B)
  : completion B :=
  match c with
  | Normal a => f a
  | Throw e => Throw e
  end.

Notation "'do' x <- c ; k" := (bind c (fun x => k))
  (at level 10, x pattern, c at level 100, k at level 200).

(** A settled promise. *)
Inductive promise : Type :=
| Resolved (v : val)
| Rejected (e : error).

(** [a === b] *)
Definition strict_equals (a b : val) : bool := bool_decide (a = b).

(** [ToBoolean] *)
Definition to_boolean (v : val) : bool :=
  match v with
  | VUndefined | VNull => false
  | VBool b => b
  | VNum n => negb (n =? 0)
  | VStr s => negb (String.eqb s "")
  | VRef _ => true
  end.

Fixpoint assoc (ps : list (string * val)) (name : string) : val :=
  match ps with
  | [] => VUndefined
  | (n, v) :: ps' => if String.eqb n name then v else assoc ps' name
  end.

(** [v.name] for a data property [name] that no built-in prototype defines
    (the code reads [uid]; documents carry [a], [b], ...): a [TypeError] on
    [undefined] and [null], the own property of a plain object, and
    [undefined] on every other value. *)
Definition get_field (h : heap) (v : val) (name : string) : completion val :=
  match v with
  | VUndefined | VNull => Throw TypeError
  | VRef l =>
      match h !! l with
      | Some (HObject ps) => Normal (assoc ps name)
      | _ => Normal VUndefined
      end
  | _ => Normal VUndefined
  end.

(** Allocation of a new object. *)
Definition alloc (h : heap) (o : hobj) : loc * heap :=
  let l := fresh (dom h) in (l, <[l := o]> h).

(** ** ES6 [Map] *)

Fixpoint map_get (es : list (val * val)) (k : val) : val :=
  match es with
  | [] => VUndefined
  | (k', v) :: es' => if bool_decide (k' = k) then v else map_get es' k
  end.

Fixpoint map_has (es : list (val * val)) (k : val) : bool :=
  match es with
  | [] => false
  | (k', _) :: es' => if bool_decide (k' = k) then true else map_has es' k
  end.

(** [set] keeps the position of an existing key and appends a new one. *)
Fixpoint map_set (es : list (val * val)) (k v : val) : list (val * val) :=
  match es with
  | [] => [(k, v)]
  | (k', v') :: es' =>
      if bool_decide (k' = k) then (k', v) :: es'
      else (k', v') :: map_set es' k v
  end.

Fixpoint map_delete (es : list (val * val)) (k : val) : list (val * val) :=
  match es with
  | [] => []
  | (k', v') :: es' =>
      if bool_decide (k' = k) then es' else (k', v') :: map_delete es' k
  end.

Definition map_values (es : list (val * val)) : list val := map snd es.

(** The receiver of [m.get], [m.has], [m.set], [m.delete], [m.values]:
    anything but a [Map] makes the call a [TypeError]. *)
Definition as_map (h : heap) (m : val) : completion (loc * list (val * val)) :=
  match m with
  | VRef l =>
      match h !! l with
      | Some (HMap es) => Normal (l, es)
      | _ => Throw TypeError
      end
  | _ => Throw TypeError
  end.

(** The property names [for (let i in items)] enumerates on an array:
    its indices, as strings. *)
Definition for_in_keys (elems : list val) : list val :=
  map (fun i : nat => VStr (pretty i)) (seq 0 (length elems)).

(** ** The in-memory store (db-plumbing-map) *)

Module MapStore.

Section Store.

(** Constructors of stored elements ([type]) and the operations of the
    patch library are opaque to the store. *)
Variable Ctor : Type.
Variable Operation : Type.

(** The relational operator [a < b] of the language, on key values. *)
Variable js_lt : val -> val -> bool.

(** The options object that [bulk] hands to the patch engine. *)
Record options : Type := {
  o_value : val * val -> val;
  o_collectionElementType : Ctor;
  o_sorted : bool
}.

(** A patch: [data] holds its entries, [patch.patch(collection, options)]
    is the engine of the patch library. *)
Record Patch : Type := { data : list (val * Operation) }.

Variable patch_patch : Patch -> val -> options -> heap -> heap * completion val.

(** User-supplied callbacks are pure functions of the heap. *)
Record Store : Type := {
  idMap : val;
  key : heap -> val -> completion val;
  comparator : heap -> val -> val -> completion Z;
  sorted : bool;
  type : Ctor
}.

Definition set_idMap (s : Store) (m : val) : Store :=
  {| idMap := m; key := key s; comparator := comparator s;
     sorted := sorted s; type := type s |}.

Definition set_sorted (s : Store) (b : bool) : Store :=
  {| idMap := idMap s; key := key s; comparator := comparator s;
     sorted := b; type := type s |}.

(** [defaultComparator(key, a, b)] *)
Definition defaultComparator (key : heap -> val -> completion val)
    (h : heap) (a b : val) : completion Z :=
  do ka <- key h a;
  do kb <- key h b;
  if js_lt ka kb then Normal (-1)
  else
    do ka' <- key h a;
    do kb' <- key h b;
    if js_lt kb' ka' then Normal 1 else Normal 0.

(** [logValue(e)]: logs the entry and returns [e[1]]. *)
Definition logValue (e : val * val) : val := snd e.

(** The default [key = e => e.uid]. *)
Definition default_key (h : heap) (e : val) : completion val :=
  get_field h e "uid".

(** [new Store(type, key, comparator)] *)
Definition new_Store (h : heap) (type : Ctor)
    (key : heap -> val -> completion val)
    (comparator : heap -> val -> val -> completion Z) : Store * heap :=
  let '(m, h1) := alloc h (HMap []) in
  ({| idMap := VRef m; key := key; comparator := comparator;
      sorted := true; type := type |}, h1).

(** [new Store(type)], [new Store(type, key)] *)
Definition new_Store_default (h : heap) (type : Ctor) : Store * heap :=
  new_Store h type default_key (defaultComparator default_key).

Definition new_Store_key (h : heap) (type : Ctor)
    (key : heap -> val -> completion val) : Store * heap :=
  new_Store h type key (defaultComparator key).

(** The result of a method call: the store, the heap, and either the
    promise returned or the exception thrown by the call itself. *)
Definition result : Type := Store * heap * completion promise.

(** [find(key)] *)
Definition find (s : Store) (h : heap) (k : val) : result :=
  match as_map h (idMap s) with
  | Throw e => (s, h, Throw e)
  | Normal (_, es) =>
      let val := map_get es k in
      if strict_equals val VUndefined
      then (s, h, Normal (Rejected (DoesNotExist k)))
      else (s, h, Normal (Resolved val))
  end.

(** [get all()] *)
Definition all (s : Store) (h : heap) : result :=
  match as_map h (idMap s) with
  | Throw e => (s, h, Throw e)
  | Normal (_, es) =>
      let '(a, h1) := alloc h (HArray (map_values es)) in
      (s, h1, Normal (Resolved (VRef a)))
  end.

(** [all.filter(item => index(value, item))] on the array at [a] *)
Definition array_filter (h : heap) (a : val) (p : val -> bool)
  : completion (val * heap) :=
  match a with
  | VRef l =>
      match h !! l with
      | Some (HArray elems) =>
          let '(r, h1) := alloc h (HArray (List.filter p elems)) in
          Normal (VRef r, h1)
      | _ => Throw TypeError
      end
  | _ => Throw TypeError
  end.

(** [findAll(index, value)]: [this.all.then(all => all.filter(...))] *)
Definition findAll (s : Store) (h : heap)
    (index : heap -> val -> val -> bool) (value : val) : result :=
  match all s h with
  | (s1, h1, Normal (Resolved all)) =>
      match array_filter h1 all (fun item => index h1 value item) with
      | Normal (r, h2) => (s1, h2, Normal (Resolved r))
      | Throw e => (s1, h1, Normal (Rejected e))
      end
  | r => r
  end.

(** [update(object)]: the entry is filed under [object.uid]. *)
Definition update (s : Store) (h : heap) (object : val) : result :=
  match as_map h (idMap s) with
  | Throw e => (s, h, Throw e)
  | Normal (m, es) =>
      match get_field h object "uid" with
      | Throw e => (s, h, Throw e)
      | Normal uid =>
          let s1 := if negb (map_has es uid) then set_sorted s false else s in
          let h1 := <[m := HMap (map_set es uid object)]> h in
          (s1, h1, Normal (Resolved (VBool true)))
      end
  end.

(** [remove(key)]: the guard [! this.idMap.get(key) === undefined] is
    [(! this.idMap.get(key)) === undefined]. *)
Definition remove (s : Store) (h : heap) (k : val) : result :=
  match as_map h (idMap s) with
  | Throw e => (s, h, Throw e)
  | Normal (m, es) =>
      if strict_equals (VBool (negb (to_boolean (map_get es k)))) VUndefined
      then (s, <[m := HMap (map_delete es k)]> h, Normal (Resolved (VBool true)))
      else (s, h, Normal (Resolved (VBool false)))
  end.

(** One turn of [for (let item in items) this.idMap.delete(item.uid)]. *)
Definition removeAll_step (s : Store) (acc : heap * completion unit)
    (item : val) : heap * completion unit :=
  match acc with
  | (h, Throw e) => (h, Throw e)
  | (h, Normal _) =>
      match as_map h (idMap s) with
      | Throw e => (h, Throw e)
      | Normal (m, es) =>
          match get_field h item "uid" with
          | Throw e => (h, Throw e)
          | Normal uid => (<[m := HMap (map_delete es uid)]> h, Normal tt)
          end
      end
  end.

(** [removeAll(index, value)]: the state and the promise are those reached
    when the callback given to [then] has run. *)
Definition removeAll (s : Store) (h : heap)
    (index : heap -> val -> val -> bool) (value : val) : result :=
  match findAll s h index value with
  | (s1, h1, Normal (Resolved items)) =>
      match items with
      | VRef a =>
          match h1 !! a with
          | Some (HArray elems) =>
              if (Z.of_nat (length elems) =? 0)
              then (s1, h1, Normal (Resolved (VBool false)))
              else
                match fold_left (removeAll_step s1) (for_in_keys elems)
                                (h1, Normal tt) with
                | (h2, Normal _) => (s1, h2, Normal (Resolved (VBool true)))
                | (h2, Throw e) => (s1, h2, Normal (Rejected e))
                end
          | _ => (s1, h1, Normal (Rejected TypeError))
          end
      | _ => (s1, h1, Normal (Rejected TypeError))
      end
  | r => r
  end.

Definition bulk_options (s : Store) : options :=
  {| o_value := logValue;
     o_collectionElementType := type s;
     o_sorted := sorted s |}.

(** [bulk(patch)]: the two assignments follow the call of the engine. *)
Definition bulk (s : Store) (h : heap) (patch : Patch) : result :=
  match patch_patch patch (idMap s) (bulk_options s) h with
  | (h1, Throw e) => (s, h1, Throw e)
  | (h1, Normal m) =>
      (set_sorted (set_idMap s m) true, h1,
       Normal (Resolved (VNum (Z.of_nat (length (data patch))))))
  end.

(** *** Sequences of operations *)

Inductive call : Type :=
| Find (k : val)
| All
| FindAll (index : heap -> val -> val -> bool) (value : val)
| Update (object : val)
| Remove (k : val)
| RemoveAll (index : heap -> val -> val -> bool) (value : val)
| Bulk (patch : Patch).

Definition run_call (s : Store) (h : heap) (c : call) : result :=
  match c with
  | Find k => find s h k
  | All => all s h
  | FindAll index value => findAll s h index value
  | Update object => update s h object
  | Remove k => remove s h k
  | RemoveAll index value => removeAll s h index value
  | Bulk patch => bulk s h patch
  end.

Fixpoint run_calls (s : Store) (h : heap) (cs : list call) : Store * heap :=
  match cs with
  | [] => (s, h)
  | c :: cs' => let '(s1, h1, _) := run_call s h c in run_calls s1 h1 cs'
  end.

(** Each operation is issued when the promise of the previous one has
    settled (the chaining the store is used with). *)
Inductive reachable (s0 : Store) (h0 : heap) : Store -> heap -> Prop :=
| reachable_init : reachable s0 h0 s0 h0
| reachable_step s h c s1 h1 r :
    reachable s0 h0 s h ->
    run_call s h c = (s1, h1, r) ->
    reachable s0 h0 s1 h1.

(** *** Comparator order *)

(** [cmp(a, b) <= 0]: [a] may come before [b]. *)
Definition precedes (cmp : heap -> val -> val -> completion Z)
    (h : heap) (a b : val) : bool :=
  match cmp h a b with
  | Normal n => n <=? 0
  | Throw _ => false
  end.

(** Every item precedes every later item. *)
Fixpoint ordered (cmp : heap -> val -> val -> completion Z)
    (h : heap) (vs : list val) : bool :=
  match vs with
  | [] => true
  | a :: vs' => forallb (precedes cmp h a) vs' && ordered cmp h vs'
  end.

(** Iterating the collection of [s] yields its items in comparator order. *)
Definition collection_ordered (s : Store) (h : heap) : Prop :=
  exists l es,
    idMap s = VRef l /\ h !! l = Some (HMap es) /\
    ordered (comparator s) h (map_values es) = true.

Definition sorted_invariant (s : Store) (h : heap) : Prop :=
  sorted s = true -> collection_ordered s h.

(** The patch engine returns a collection in comparator order. *)
Definition engine_ordered (cmp : heap -> val -> val -> completion Z) : Prop :=
  forall p m o h h1 v,
    patch_patch p m o h = (h1, Normal v) ->
    exists l es,
      v = VRef l /\ h1 !! l = Some (HMap es) /\
      ordered cmp h1 (map_values es) = true.

(** Every entry is stored under the [uid] of its value. *)
Definition keyed_by_uid (h : heap) (es : list (val * val)) : Prop :=
  Forall (fun e => get_field h (snd e) "uid" = Normal (fst e)) es.

(** The comparator looks at the [uid] of its arguments only. *)
Definition uid_determined (cmp : heap -> val -> val -> completion Z) : Prop :=
  forall h h' a a' b b',
    get_field h a "uid" = get_field h' a' "uid" ->
    get_field h b "uid" = get_field h' b' "uid" ->
    cmp h a b = cmp h' a' b'.

(** The engine returns a [Map] in comparator order whose entries are keyed
    by [uid], and a failing engine leaves the heap as it found it. *)
Definition engine_contract (cmp : heap -> val -> val -> completion Z) : Prop :=
  forall p m o h h1 r,
    patch_patch p m o h = (h1, r) ->
    match r with
    | Normal v =>
        exists l es,
          v = VRef l /\ h1 !! l = Some (HMap es) /\
          keyed_by_uid h1 es /\
          ordered cmp h1 (map_values es) = true
    | Throw _ => h1 = h
    end.

(** [n] times [m.delete(undefined)] *)
Definition delete_undefined (n : nat) (es : list (val * val))
  : list (val * val) :=
  Nat.iter n (fun es => map_delete es VUndefined) es.

(** What the operations maintain between calls: the collection field
    holds a [Map] keyed by [uid], in comparator order while the sorted
    flag is set. *)
Definition store_invariant (cmp : heap -> val -> val -> completion Z)
    (s : Store) (h : heap) : Prop :=
  comparator s = cmp /\
  exists l es,
    idMap s = VRef l /\ h !! l = Some (HMap es) /\
    keyed_by_uid h es /\
    (sorted s = true -> ordered cmp h (map_values es) = true).

Definition is_object (o : option hobj) : bool :=
  match o with
  | Some (HObject _) => true
  | _ => false
  end.

(** *** Frames *)

(** Every object of [h] is still there, unchanged, in [h1], and so is the
    collection of [s]. *)
Definition preserves (s : Store) (h h1 : heap) : Prop :=
  h ⊆ h1 /\ as_map h1 (idMap s) = as_map h (idMap s).

(** [v] is an array that did not exist in [h]; whatever the caller writes
    into it, the objects of [h] and the collection of [s] stay as they
    were. *)
Definition fresh_array (s : Store) (h h1 : heap) (v : val) : Prop :=
  exists a elems,
    v = VRef a /\ h !! a = None /\ h1 !! a = Some (HArray elems) /\
    forall o, preserves s h (<[a := o]> h1).

End Store.

Arguments idMap {Ctor} s.
Arguments key {Ctor} s.
Arguments comparator {Ctor} s.
Arguments sorted {Ctor} s.
Arguments type {Ctor} s.
Arguments data {Operation} p.
Arguments new_Store {Ctor} h type key comparator.
Arguments new_Store_key {Ctor} js_lt h type key.
Arguments new_Store_default {Ctor} js_lt h type.
Arguments find {Ctor} s h k.
Arguments all {Ctor} s h.
Arguments findAll {Ctor} s h index value.
Arguments update {Ctor} s h object.
Arguments remove {Ctor} s h k.
Arguments removeAll {Ctor} s h index value.
Arguments bulk {Ctor Operation} patch_patch s h patch.
Arguments bulk_options {Ctor} s.
Arguments Find {Operation} k.
Arguments All {Operation}.
Arguments FindAll {Operation} index value.
Arguments Update {Operation} object.
Arguments Remove {Operation} k.
Arguments RemoveAll {Operation} index value.
Arguments Bulk {Operation} patch.
Arguments run_call {Ctor Operation} patch_patch s h c.
Arguments run_calls {Ctor Operation} patch_patch s h cs.
Arguments reachable {Ctor Operation} patch_patch s0 h0 _ _.
Arguments collection_ordered {Ctor} s h.
Arguments sorted_invariant {Ctor} s h.
Arguments engine_ordered {Ctor Operation} patch_patch cmp.
Arguments engine_contract {Ctor Operation} patch_patch cmp.
Arguments set_idMap {Ctor} s m.
Arguments set_sorted {Ctor} s b.
Arguments removeAll_step {Ctor} s acc item.
Arguments store_invariant {Ctor} cmp s h.
Arguments preserves {Ctor} s h h1.
Arguments fresh_array {Ctor} s h h1 v.

(** *** The store at work: documents, indexes and engines of the tests *)

Local Open Scope string_scope.

(** Operations of the patch library, as far as the tests build them. *)
#[warnings="-register-all"]
Inductive operation : Type :=
| Rpl (v : val)
| Mrg (fields : list (string * operation)).

(** [new Simple(uid, a, b)] *)
Definition Simple (uid : Z) (a b : string) : hobj :=
  HObject [("uid", VNum uid); ("a", VStr a); ("b", VStr b)].

(** [byA(a, simple) = simple.a == a]; on two strings [==] is [===]. *)
Definition byA (h : heap) (a : val) (simple : val) : bool :=
  match get_field h simple "a" with
  | Normal v => bool_decide (v = a)
  | Throw _ => false
  end.

(** The three documents of the tests, at locations 1, 2 and 3. *)
Definition test_heap : heap :=
  <[1%positive := Simple 1 "hello" "world"]>
    (<[2%positive := Simple 2 "hello" "friend"]>
       {[3%positive := Simple 3 "goodbye" "Mr. Chips"]}).

(** The document of the README, with its key in the field [key]. *)
Definition readme_heap : heap :=
  {[1%positive :=
      HObject [("key", VNum 1); ("a", VStr "hello"); ("b", VStr "sailor")]]}.

(** [object => object.key] *)
Definition by_key (h : heap) (object : val) : completion val :=
  get_field h object "key".

(** [(x, y) => x.uid - y.uid], on numeric [uid]s; a difference that is not
    a number counts as 0, as it does for [Array.prototype.sort]. *)
Definition by_uid (h : heap) (x y : val) : completion Z :=
  match get_field h x "uid" with
  | Throw e => Throw e
  | Normal u =>
      match get_field h y "uid" with
      | Throw e => Throw e
      | Normal v =>
          match u, v with
          | VNum n, VNum m => Normal (n - m)
          | _, _ => Normal 0
          end
      end
  end.

(** [(x, y) => x.a - y.a] *)
Definition by_a (h : heap) (x y : val) : completion Z :=
  match get_field h x "a" with
  | Throw e => Throw e
  | Normal u =>
      match get_field h y "a" with
      | Throw e => Throw e
      | Normal v =>
          match u, v with
          | VNum n, VNum m => Normal (n - m)
          | _, _ => Normal 0
          end
      end
  end.

(** An engine that rejects every patch. *)
Definition failing_engine (p : Patch operation) (m : val)
    (o : options string) (h : heap) : heap * completion val :=
  (h, Throw (Raised (VStr "cannot apply patch"))).

(** An engine that patches in place and returns the collection it got. *)
Definition same_engine (p : Patch operation) (m : val)
    (o : options string) (h : heap) : heap * completion val :=
  (h, Normal m).

(** An engine whose result is a new collection of two new documents,
    [{uid: u1, a: 1}] under the key 1 and [{uid: u2, a: 2}] under the
    key 2, in this order. *)
Definition two_docs_engine (u1 u2 : Z) (p : Patch operation) (m : val)
    (o : options string) (h : heap) : heap * completion val :=
  let '(d1, h1) := alloc h (HObject [("uid", VNum u1); ("a", VNum 1)]) in
  let '(d2, h2) := alloc h1 (HObject [("uid", VNum u2); ("a", VNum 2)]) in
  let '(c, h3) := alloc h2 (HMap [(VNum 1, VRef d1); (VNum 2, VRef d2)]) in
  (h3, Normal (VRef c)).

(** The patch of the tests:
    [new Ops.Map([[1, new Ops.Mrg({b: new Ops.Rpl('pizza')})]])] *)
Definition test_patch : Patch operation :=
  {| data := [(VNum 1, Mrg [("b", Rpl (VStr "pizza"))])] |}.

(** A store holding the three test documents. *)
Definition test_store : Store string * heap :=
  let '(s, h) := new_Store test_heap "Simple" default_key by_uid in
  run_calls same_engine s h
    [Update (VRef 1%positive); Update (VRef 2%positive);
     Update (VRef 3%positive)].

(** A document with the [uid] of a stored one and another [a]. *)
Definition stale_heap : heap :=
  {[1%positive := HObject [("uid", VNum 1); ("a", VNum 5)]]}.

Definition stale_state : Store string * heap :=
  let '(s, h) := new_Store stale_heap "Simple" default_key by_a in
  run_calls (two_docs_engine 1 2) s h
    [Bulk test_patch; Update (VRef 1%positive)].

(** A document with the [uid] 2, and an engine that files under the key 2
    a document whose [uid] is 6. *)
Definition rekeyed_heap : heap :=
  {[1%positive := HObject [("uid", VNum 2); ("a", VNum 0)]]}.

Definition rekeyed_state : Store string * heap :=
  let '(s, h) := new_Store rekeyed_heap "Simple" default_key by_uid in
  run_calls (two_docs_engine 5 6) s h
    [Bulk test_patch; Update (VRef 1%positive)].

(** [a < b] on two numbers, the operands that the examples compare. *)
Definition lt_number (a b : val) : bool :=
  match a, b with
  | VNum x, VNum y => (x <? y)%Z
  | _, _ => false
  end.

End MapStore.

(** ** The REST store and its client (src/store.js) *)

Module RestStore.

Local Open Scope string_scope.

(** *** Plain objects used as records of strings *)

Section Props.

Context {A : Type}.

Fixpoint prop_get (o : list (string * A)) (name : string) : option A :=
  match o with
  | [] => None
  | (n, v) :: o' => if String.eqb n name then Some v else prop_get o' name
  end.

(** [o[name] = v]: an existing property keeps its place. *)
Fixpoint prop_set (o : list (string * A)) (name : string) (v : A)
  : list (string * A) :=
  match o with
  | [] => [(name, v)]
  | (n, v') :: o' =>
      if String.eqb n name then (n, v) :: o'
      else (n, v') :: prop_set o' name v
  end.

(** [Object.assign(target, source)]: the properties of [source], in order,
    are written into [target]. *)
Definition Object_assign (target source : list (string * A))
  : list (string * A) :=
  fold_left (fun t p => prop_set t p.1 p.2) source target.

End Props.

(** *** Requests and responses of the fetch API *)

(** A settled promise: fulfilled with a value or rejected with an error. *)
Inductive settled (E A : Type) : Type :=
| Fulfilled (a : A)
| Rejected (e : E).
Arguments Fulfilled {E A} a.
Arguments Rejected {E A} e.

(** What [response.json()] does: it returns a promise, settled with the
    parsed body or with the parser's error, or it throws. *)
Inductive json_call : Type :=
| JsonReturns (p : settled error val)
| JsonThrows (e : error).

(** The response that [fetch] resolves with: [response_url] is its [url],
    the URL that was fetched in the end (the URL of the request, unless a
    redirection was followed). *)
Record Response : Type := {
  status : Z;
  statusText : string;
  response_url : string;
  response_headers : list (string * string);
  json : json_call
}.

(** [new Request(url, init)]: [req_init] holds the options copied from the
    client, [req_headers] the init of [new Headers(...)], [req_body] the
    body when there is one. *)
Record Request : Type := {
  req_url : string;
  req_init : list (string * string);
  req_headers : list (string * string);
  req_body : option val
}.

(** An error on its way to the caller, with the [response] that
    [checkStatus] attaches. *)
Record thrown : Type := {
  err : error;
  err_response : option Response
}.

Definition plain (e : error) : thrown :=
  {| err := e; err_response := None |}.

(** What a [then] callback does: return a value, return a promise, throw. *)
Inductive callback_result : Type :=
| CbReturn (v : val)
| CbPromise (p : settled error val)
| CbThrow (e : thrown).

Definition DEFAULT_OPTIONS : list (string * list (string * string)) :=
  [("GET", [("method", "GET"); ("mode", "cors"); ("cache", "default")]);
   ("DELETE", [("method", "DELETE"); ("mode", "cors")]);
   ("POST", [("method", "POST"); ("model", "cors")]);
   ("PUT", [("method", "PUT"); ("model", "cors")])].

Definition DEFAULT_HEADERS : list (string * string) :=
  [("Content-Type", "application/json")].

(** A client object. *)
Record Client : Type := {
  base_url : string;
  options : list (string * list (string * string));
  headers : list (string * string)
}.

(** A named index function: the REST store uses its name only. *)
Record Index : Type := { index_name : string }.

(** The constructor of the stored elements, with its static [fromJSON]. *)
Record Ctor : Type := { fromJSON : val -> completion val }.

(** An object of [class IndexMap]: the encoders of query values that were
    assigned to it, by index name.  They are its own properties, but for
    the entry [__proto__]: the assignment [this['__proto__'] = encoder]
    makes the encoder the prototype of the object, and reading
    [this['__proto__']] gives it back. *)
Definition IndexMap : Type := list (string * (val -> string)).

(** A store holds references to its client and to its index map. *)
Record Store : Type := {
  client : loc;
  endpoint : string;
  type : Ctor;
  index_map : loc
}.

(** A function found on the built-in part of the prototype chain of an
    index map, called as [index_map[name](value)] inside a template
    literal: the text that the call contributes, or what it throws.  These
    functions leave the index map as it is. *)
Definition builtin : Type := heap -> IndexMap -> val -> completion string.

(** What the host provides: [encodeURIComponent], the conversion to string
    of template literals, [JSON.stringify], whether the logger [debug]
    has the [log] method that [_doDelete] calls, and what the language
    puts on the prototype chain of an index map.  [builtin_member false]
    is what an object of [class IndexMap] inherits besides the method
    [addSimpleField]: the [constructor] of [IndexMap.prototype], and
    [Object.prototype]; once an encoder has become the prototype of the
    index map, [builtin_member true] is what is found on that function, on
    [Function.prototype] and on [Object.prototype].  [builtin_readonly]
    tells the inherited properties that an assignment cannot shadow
    (in the strict code of a class body it throws a [TypeError]). *)
Record Host : Type := {
  encodeURIComponent : string -> string;
  to_string : val -> string;
  JSON_stringify : heap -> val -> val;
  debug_log_defined : bool;
  builtin_member : bool -> string -> option builtin;
  builtin_readonly : bool -> string -> bool
}.

(** A patch of the patch library, with the value of its [toJSON()]. *)
Record Patch : Type := { toJSON : val }.

Section Store.

(** The host the store runs on. *)
Variable host : Host.

(** The server behind [fetch]: it answers a request with a response, or
    the request fails. *)
Variable ServerState : Type.
Variable fetch : ServerState -> Request -> ServerState * settled error Response.

(** The world the store runs in: documents, the clients and the index
    maps (shared by the stores built from them), the lines of
    [console.warn], the requests handed to [fetch] so far, and the
    server. *)
Record world : Type := {
  objects : heap;
  clients : gmap loc Client;
  index_maps : gmap loc IndexMap;
  console : list (list string);
  sent : list Request;
  server : ServerState
}.

Definition set_objects (w : world) (h : heap) : world :=
  {| objects := h; clients := clients w; index_maps := index_maps w;
     console := console w; sent := sent w; server := server w |}.

Definition set_clients (w : world) (cs : gmap loc Client) : world :=
  {| objects := objects w; clients := cs; index_maps := index_maps w;
     console := console w; sent := sent w; server := server w |}.

Definition set_index_maps (w : world) (ms : gmap loc IndexMap) : world :=
  {| objects := objects w; clients := clients w; index_maps := ms;
     console := console w; sent := sent w; server := server w |}.

Definition console_warn (w : world) (line : list string) : world :=
  {| objects := objects w; clients := clients w;
     index_maps := index_maps w;
     console := console w ++ [line];
     sent := sent w; server := server w |}.

(** [fetch(request)] *)
Definition do_fetch (w : world) (request : Request)
  : world * settled error Response :=
  let '(sv, r) := fetch (server w) request in
  ({| objects := objects w; clients := clients w;
      index_maps := index_maps w; console := console w;
      sent := sent w ++ [request]; server := sv |}, r).

(** [checkStatus(response)] *)
Definition checkStatus (w : world) (response : Response)
  : world * callback_result :=
  if (status response =? 204)%Z then (w, CbReturn (VBool true))
  else if (status response =? 200)%Z then
    match json response with
    | JsonReturns p => (w, CbPromise p)
    | JsonThrows _ =>
        (console_warn w ["ServiceClient.checkStatus - couldn't parse";
                         "[object Promise]"],
         CbThrow (plain (JsError "unknown response from server")))
    end
  else
    let w1 := console_warn w ["checkStatus"; statusText response] in
    let error :=
      if (status response =? 404)%Z
      then DoesNotExist (VStr (statusText response))
      else JsError (statusText response) in
    (w1, CbThrow {| err := error; err_response := Some response |}).

(** [promise.then(checkStatus)] on the promise of [fetch]; [debugResponse]
    before it passes the response on. *)
Definition then_checkStatus (w : world) (p : settled error Response)
  : world * settled thrown val :=
  match p with
  | Rejected e => (w, Rejected (plain e))
  | Fulfilled response =>
      match checkStatus w response with
      | (w1, CbReturn v) => (w1, Fulfilled v)
      | (w1, CbPromise (Fulfilled v)) => (w1, Fulfilled v)
      | (w1, CbPromise (Rejected e)) => (w1, Rejected (plain e))
      | (w1, CbThrow e) => (w1, Rejected e)
      end
  end.

(** [promise.then(resultmap)]; the [debugInline] steps around it pass
    their argument on. *)
Definition then_resultmap (w : world) (p : settled thrown val)
    (resultmap : world -> val -> world * completion val)
  : world * settled thrown val :=
  match p with
  | Rejected e => (w, Rejected e)
  | Fulfilled body =>
      match resultmap w body with
      | (w1, Normal v) => (w1, Fulfilled v)
      | (w1, Throw e) => (w1, Rejected (plain e))
      end
  end.

(** *** [class IndexMap] *)

(** Whether an encoder has become the prototype of the index map, in
    place of [IndexMap.prototype]. *)
Definition function_chain (m : IndexMap) : bool :=
  match prop_get m "__proto__" with
  | Some _ => true
  | None => false
  end.

(** The method [addSimpleField], applied to the index map [m] as [this]:
    [this[index.name] = value => ...; return this].  The assignment
    throws where no encoder was assigned under that name yet and the name
    is one that the object inherits and cannot shadow. *)
Definition addSimpleField (m : IndexMap) (index : Index) (name : string)
  : completion IndexMap :=
  match prop_get m (index_name index),
        builtin_readonly host (function_chain m) (index_name index) with
  | None, true => Throw TypeError
  | _, _ =>
      Normal (prop_set m (index_name index)
                (fun value => encodeURIComponent host name +:+ "=" +:+
                              encodeURIComponent host (to_string host value)))
  end.


(** [new IndexMap()] *)
Definition new_IndexMap (w : world) : loc * world :=
  let m := fresh (dom (index_maps w)) in
  (m, set_index_maps w (<[m := []]> (index_maps w))).

(** The method on the index map that [m] refers to: the map is changed in
    place, and [m] is returned. *)
Definition IndexMap_addSimpleField (w : world) (m : loc) (index : Index)
    (name : string) : world * completion loc :=
  match index_maps w !! m with
  | None => (w, Throw TypeError)
  | Some im =>
      match addSimpleField im index name with
      | Throw e => (w, Throw e)
      | Normal im1 =>
          (set_index_maps w (<[m := im1]> (index_maps w)), Normal m)
      end
  end.

(** What the property [name] of an index map is when no encoder was
    assigned under that name: the method [addSimpleField] of
    [IndexMap.prototype], or what the host has further up the prototype
    chain. *)
Inductive inherited : Type :=
| InheritedAddSimpleField
| InheritedBuiltin (member : builtin).

Definition lookup_inherited (m : IndexMap) (name : string)
  : option inherited :=
  if function_chain m
  then option_map InheritedBuiltin (builtin_member host true name)
  else if String.eqb name "addSimpleField" then Some InheritedAddSimpleField
  else option_map InheritedBuiltin (builtin_member host false name).

(** An index map in a template literal: its [toString] is called, an
    encoder if one was assigned under that name (it gets no argument),
    the inherited one otherwise; without any, its [valueOf], which makes a
    string only when it is an encoder. *)
Definition IndexMap_toString (h : heap) (m : IndexMap) : completion string :=
  match prop_get m "toString" with
  | Some encode => Normal (encode VUndefined)
  | None =>
      match builtin_member host (function_chain m) "toString" with
      | Some member => member h m VUndefined
      | None =>
          match prop_get m "valueOf" with
          | Some encode => Normal (encode VUndefined)
          | None => Throw TypeError
          end
      end
  end.

(** *** [class Client] *)

(** [Client.getBearerAuthHeader(token)] *)
Definition getBearerAuthHeader (token : string) : list (string * string) :=
  [("Authorizaton", "Bearer " +:+ token)].

(** [new Client(base_url, headers, options)] *)
Definition new_Client (w : world) (base_url : string)
    (headers : list (string * string))
    (options : list (string * list (string * string))) : loc * world :=
  let c := fresh (dom (clients w)) in
  (c, set_clients w
        (<[c := {| base_url := base_url;
                   options := Object_assign (Object_assign [] DEFAULT_OPTIONS) options;
                   headers := Object_assign (Object_assign [] DEFAULT_HEADERS) headers |}]>
           (clients w))).

(** [client.updateHeaders(headers)]: the headers object of the client is
    changed in place. *)
Definition updateHeaders (c : loc) (hs : list (string * string)) (w : world)
  : world :=
  match clients w !! c with
  | Some cl =>
      set_clients w
        (<[c := {| base_url := base_url cl;
                   options := options cl;
                   headers := Object_assign (headers cl) hs |}]> (clients w))
  | None => w
  end.

(** [Object.assign({}, this.options.METHOD)]; a missing source is skipped. *)
Definition method_options (cl : Client) (method : string)
  : list (string * string) :=
  match prop_get (options cl) method with
  | Some o => Object_assign [] o
  | None => []
  end.

(** [_addHeaders(request)]: [request.headers = new Headers(this.headers)] *)
Definition _addHeaders (cl : Client) (url : string)
    (init : list (string * string)) : Request :=
  {| req_url := url; req_init := init;
     req_headers := headers cl; req_body := None |}.

(** [_addBody(request, body)] *)
Definition _addBody (h : heap) (request : Request) (body : val) : Request :=
  {| req_url := req_url request; req_init := req_init request;
     req_headers := req_headers request;
     req_body := Some (match body with
                       | VStr _ => body
                       | _ => JSON_stringify host h body
                       end) |}.

Definition getGetRequest (cl : Client) (url : string) : Request :=
  _addHeaders cl (base_url cl +:+ url) (method_options cl "GET").

Definition getDeleteRequest (cl : Client) (url : string) : Request :=
  _addHeaders cl (base_url cl +:+ url) (method_options cl "DELETE").

Definition getPostRequest (h : heap) (cl : Client) (url : string) (obj : val)
  : Request :=
  _addBody h (_addHeaders cl (base_url cl +:+ url) (method_options cl "POST")) obj.

Definition getPutRequest (h : heap) (cl : Client) (url : string) (obj : val)
  : Request :=
  _addBody h (_addHeaders cl (base_url cl +:+ url) (method_options cl "PUT")) obj.

(** [client.getStore(endpoint, type, index_map)]: the store keeps the
    references to the client and to the index map. *)
Definition getStore (c : loc) (endpoint : string) (type : Ctor)
    (index_map : loc) : Store :=
  {| client := c; endpoint := endpoint; type := type; index_map := index_map |}.

(** [client.getStore(endpoint, type)]: the index map is a new one. *)
Definition getStore_default (w : world) (c : loc) (endpoint : string)
    (type : Ctor) : Store * world :=
  let '(m, w1) := new_IndexMap w in (getStore c endpoint type m, w1).

(** *** [class Store] *)

Definition result : Type := world * completion (settled thrown val).

(** [this.client], a client object. *)
Definition the_client (w : world) (s : Store) : completion Client :=
  match clients w !! client s with
  | Some cl => Normal cl
  | None => Throw TypeError
  end.

Definition _doGet (s : Store) (w : world) (url : string)
    (resultmap : world -> val -> world * completion val) : result :=
  match the_client w s with
  | Throw e => (w, Throw e)
  | Normal cl =>
      let request := getGetRequest cl url in
      let '(w1, p1) := do_fetch w request in
      let '(w2, p2) := then_checkStatus w1 p1 in
      let '(w3, p3) := then_resultmap w2 p2 resultmap in
      (w3, Normal p3)
  end.

Definition _doPost (s : Store) (w : world) (url : string) (object : val)
  : result :=
  match the_client w s with
  | Throw e => (w, Throw e)
  | Normal cl =>
      let request := getPostRequest (objects w) cl url object in
      let '(w1, p1) := do_fetch w request in
      let '(w2, p2) := then_checkStatus w1 p1 in
      (w2, Normal p2)
  end.

Definition _doPut (s : Store) (w : world) (url : string) (object : val)
  : result :=
  match the_client w s with
  | Throw e => (w, Throw e)
  | Normal cl =>
      let request := getPutRequest (objects w) cl url object in
      let '(w1, p1) := do_fetch w request in
      let '(w2, p2) := then_checkStatus w1 p1 in
      (w2, Normal p2)
  end.

(** [debug.log(...)] comes first: without that method the call throws. *)
Definition _doDelete (s : Store) (w : world) (url : string) : result :=
  if negb (debug_log_defined host) then (w, Throw TypeError)
  else
    match the_client w s with
    | Throw e => (w, Throw e)
    | Normal cl =>
        let request := getDeleteRequest cl url in
        let '(w1, p1) := do_fetch w request in
        let '(w2, p2) := then_checkStatus w1 p1 in
        (w2, Normal p2)
    end.

Definition _singleResourceURI (s : Store) (uid : val) : string :=
  endpoint s +:+ "/items/" +:+ encodeURIComponent host (to_string host uid).

(** [this.index_map[index.name](value)], as text in the template literal.
    The property is read through the prototype chain: the encoder assigned
    under that name; without one, what the index map inherits under that
    name; a [TypeError] when there is nothing, or no function.  The
    inherited [addSimpleField] takes [value] for its index and [undefined]
    for its name: it assigns an encoder under the name [value.name] and
    returns the index map, which is then converted to a string. *)
Definition call_encoder (w : world) (m : loc) (name : string) (value : val)
  : world * completion string :=
  match index_maps w !! m with
  | None => (w, Throw TypeError)
  | Some im =>
      match prop_get im name with
      | Some encode => (w, Normal (encode value))
      | None =>
          match lookup_inherited im name with
          | None => (w, Throw TypeError)
          | Some (InheritedBuiltin member) => (w, member (objects w) im value)
          | Some InheritedAddSimpleField =>
              match get_field (objects w) value "name" with
              | Throw e => (w, Throw e)
              | Normal n =>
                  match addSimpleField im {| index_name := to_string host n |}
                          (to_string host VUndefined) with
                  | Throw e => (w, Throw e)
                  | Normal im1 =>
                      (set_index_maps w (<[m := im1]> (index_maps w)),
                       IndexMap_toString (objects w) im1)
                  end
              end
          end
      end
  end.

Definition _multipleResourceURI (s : Store) (w : world) (op : string)
    (index : Index) (value : val) : world * completion string :=
  match call_encoder w (index_map s) (index_name index) value with
  | (w1, Normal query) =>
      (w1, Normal (endpoint s +:+ "/" +:+ op +:+ "/" +:+ index_name index
                   +:+ "?" +:+ query))
  | (w1, Throw e) => (w1, Throw e)
  end.

Definition _bulkResourceURI (s : Store) : string := endpoint s +:+ "/bulk".

Definition find (s : Store) (w : world) (key : val) : result :=
  _doGet s w (_singleResourceURI s key)
    (fun w result => (w, fromJSON (type s) result)).

(** [items.map(item => this.type.fromJSON(item))], left to right. *)
Fixpoint map_fromJSON (t : Ctor) (items : list val) : completion (list val) :=
  match items with
  | [] => Normal []
  | item :: items' =>
      match fromJSON t item with
      | Throw e => Throw e
      | Normal v =>
          match map_fromJSON t items' with
          | Throw e => Throw e
          | Normal vs => Normal (v :: vs)
          end
      end
  end.

(** [result => result.map(item => this.type.fromJSON(item))] *)
Definition findAll_resultmap (s : Store) (w : world) (result : val)
  : world * completion val :=
  match result with
  | VRef a =>
      match objects w !! a with
      | Some (HArray items) =>
          match map_fromJSON (type s) items with
          | Throw e => (w, Throw e)
          | Normal vs =>
              let '(r, h1) := alloc (objects w) (HArray vs) in
              (set_objects w h1, Normal (VRef r))
          end
      | _ => (w, Throw TypeError)
      end
  | _ => (w, Throw TypeError)
  end.

Definition findAll (s : Store) (w : world) (index : Index) (value : val)
  : result :=
  match _multipleResourceURI s w "findAll" index value with
  | (w1, Throw e) => (w1, Throw e)
  | (w1, Normal url) => _doGet s w1 url (findAll_resultmap s)
  end.

Definition update (s : Store) (w : world) (object : val) : result :=
  match get_field (objects w) object "uid" with
  | Throw e => (w, Throw e)
  | Normal uid => _doPut s w (_singleResourceURI s uid) object
  end.

Definition remove (s : Store) (w : world) (key : val) : result :=
  _doDelete s w (_singleResourceURI s key).

Definition removeAll (s : Store) (w : world) (index : Index) (value : val)
  : result :=
  match _multipleResourceURI s w "removeAll" index value with
  | (w1, Throw e) => (w1, Throw e)
  | (w1, Normal url) => _doDelete s w1 url
  end.

Definition bulk (s : Store) (w : world) (patch : Patch) : result :=
  _doPost s w (_bulkResourceURI s) (toJSON patch).

Inductive call : Type :=
| Find (key : val)
| FindAll (index : Index) (value : val)
| Update (object : val)
| Remove (key : val)
| RemoveAll (index : Index) (value : val)
| Bulk (patch : Patch).

Definition run_call (s : Store) (w : world) (c : call) : result :=
  match c with
  | Find key => find s w key
  | FindAll index value => findAll s w index value
  | Update object => update s w object
  | Remove key => remove s w key
  | RemoveAll index value => removeAll s w index value
  | Bulk patch => bulk s w patch
  end.

End Store.

Arguments objects {ServerState} w.
Arguments clients {ServerState} w.
Arguments console {ServerState} w.
Arguments sent {ServerState} w.
Arguments server {ServerState} w.
Arguments index_maps {ServerState} w.
Arguments set_index_maps {ServerState} w ms.
Arguments new_IndexMap {ServerState} w.
Arguments IndexMap_addSimpleField host {ServerState} w m index name.
Arguments getStore_default {ServerState} w c endpoint type.
Arguments call_encoder host {ServerState} w m name value.
Arguments _multipleResourceURI host {ServerState} s w op index value.
Arguments set_objects {ServerState} w h.
Arguments set_clients {ServerState} w cs.
Arguments console_warn {ServerState} w line.
Arguments do_fetch {ServerState} fetch w request.
Arguments checkStatus {ServerState} w response.
Arguments then_checkStatus {ServerState} w p.
Arguments then_resultmap {ServerState} w p resultmap.
Arguments new_Client {ServerState} w base_url headers options.
Arguments updateHeaders {ServerState} c hs w.
Arguments the_client {ServerState} w s.
Arguments _doGet {ServerState} fetch s w url resultmap.
Arguments _doPost host {ServerState} fetch s w url object.
Arguments _doPut host {ServerState} fetch s w url object.
Arguments _doDelete host {ServerState} fetch s w url.
Arguments findAll_resultmap {ServerState} s w result.
Arguments find host {ServerState} fetch s w key.
Arguments findAll host {ServerState} fetch s w index value.
Arguments update host {ServerState} fetch s w object.
Arguments remove host {ServerState} fetch s w key.
Arguments removeAll host {ServerState} fetch s w index value.
Arguments bulk host {ServerState} fetch s w patch.
Arguments run_call host {ServerState} fetch s w c.

(** *** The store at work: the setting of the tests *)

(** [encodeURIComponent] on strings of unreserved characters. *)
Definition encode_unreserved (s : string) : string := s.

(** The conversion to string of primitive values; a plain object gives
    [[object Object]]. *)
Definition to_string_prim (v : val) : string :=
  match v with
  | VUndefined => "undefined"
  | VNull => "null"
  | VBool true => "true"
  | VBool false => "false"
  | VNum n => pretty n
  | VStr s => s
  | VRef _ => "[object Object]"
  end.

Definition quote : string := String (Ascii.ascii_of_nat 34) EmptyString.

(** [JSON.stringify] of a primitive value; strings are taken to need no
    escaping. *)
Definition stringify_prim (v : val) : string :=
  match v with
  | VStr s => quote +:+ s +:+ quote
  | VUndefined | VRef _ => "null"
  | _ => to_string_prim v
  end.

Fixpoint join_commas (items : list string) : string :=
  match items with
  | [] => EmptyString
  | [item] => item
  | item :: items' => item +:+ "," +:+ join_commas items'
  end.

(** [JSON.stringify] on primitive values, on arrays of primitive values
    and on documents whose properties are primitive values; a property
    that is [undefined] is left out. *)
Definition stringify_flat (h : heap) (v : val) : val :=
  match v with
  | VUndefined => VUndefined
  | VRef l =>
      match h !! l with
      | Some (HObject ps) =>
          VStr ("{" +:+
                join_commas
                  (map (fun p => quote +:+ p.1 +:+ quote +:+ ":" +:+
                                 stringify_prim p.2)
                       (List.filter
                          (fun p => negb (bool_decide (p.2 = VUndefined))) ps))
                +:+ "}")
      | Some (HArray vs) =>
          VStr ("[" +:+ join_commas (map stringify_prim vs) +:+ "]")
      | _ => VStr "{}"
      end
  | _ => VStr (stringify_prim v)
  end.

(** The built-in prototypes, as far as an index map meets them.  An index
    map converted to a string: by its [toString], an encoder if one was
    assigned under that name, [Object.prototype.toString] otherwise; the
    [toString] of [Function.prototype] throws on what is no function. *)
Definition this_toString (functions : bool) (m : IndexMap)
  : completion string :=
  match prop_get m "toString" with
  | Some encode => Normal (encode VUndefined)
  | None => if functions then Throw TypeError else Normal "[object Object]"
  end.

(** [hasOwnProperty(key)], as text; [__proto__] is never an own
    property. *)
Definition has_own (m : IndexMap) (key : val) : completion string :=
  Normal (if String.eqb (to_string_prim key) "__proto__" then "false"
          else match prop_get m (to_string_prim key) with
               | Some _ => "true"
               | None => "false"
               end).

(** A call that throws a [TypeError]: of what is no function, or of a
    function that refuses its receiver or its arguments. *)
Definition not_callable : builtin := fun _ _ _ => Throw TypeError.

(** The class [IndexMap], found as [constructor]: called without [new],
    it throws a [TypeError]. *)
Definition IndexMap_prototype : list (string * builtin) :=
  [("constructor", not_callable)].

(** [Object.prototype]: [__defineGetter__] and [__defineSetter__] get no
    function as second argument; [__lookupGetter__] and [__lookupSetter__]
    find an accessor under [__proto__] only; [valueOf] returns the index
    map and [toLocaleString] calls its [toString]; the accessor
    [__proto__] gives [IndexMap.prototype], which is no function. *)
Definition Object_prototype (functions : bool) : list (string * builtin) :=
  [("__defineGetter__", not_callable);
   ("__defineSetter__", not_callable);
   ("hasOwnProperty", fun _ m key => has_own m key);
   ("__lookupGetter__",
    fun _ _ key =>
      Normal (if String.eqb (to_string_prim key) "__proto__"
              then "function get __proto__() { [native code] }"
              else "undefined"));
   ("__lookupSetter__",
    fun _ _ key =>
      Normal (if String.eqb (to_string_prim key) "__proto__"
              then "function set __proto__() { [native code] }"
              else "undefined"));
   ("isPrototypeOf", fun _ _ _ => Normal "false");
   ("propertyIsEnumerable", fun _ m key => has_own m key);
   ("toString", fun _ _ _ => Normal "[object Object]");
   ("valueOf", fun _ m _ => this_toString functions m);
   ("__proto__", not_callable);
   ("toLocaleString", fun _ m _ => this_toString functions m)].

Definition newline : string := String (Ascii.ascii_of_nat 10) EmptyString.

(** An encoder as prototype: its [length] and [name] are no functions;
    behind it, [Function.prototype], whose methods throw on an index map,
    which is no function, and whose [constructor] is [Function]: called
    with the text of a function body, it makes a function of it. *)
Definition Function_prototype : list (string * builtin) :=
  [("length", not_callable);
   ("name", not_callable);
   ("arguments", not_callable);
   ("caller", not_callable);
   ("constructor",
    fun _ _ body =>
      Normal ("function anonymous(" +:+ newline +:+ ") {" +:+ newline +:+
              to_string_prim body +:+ newline +:+ "}"));
   ("apply", not_callable);
   ("bind", not_callable);
   ("call", not_callable);
   ("toString", not_callable)].

Definition standard_member (functions : bool) (name : string)
  : option builtin :=
  prop_get ((if functions then Function_prototype else IndexMap_prototype)
            ++ Object_prototype functions)%list name.

(** The properties of a function that cannot be written to through the
    objects that inherit from it. *)
Definition standard_readonly (functions : bool) (name : string) : bool :=
  functions &&
  (String.eqb name "length" || String.eqb name "name" ||
   String.eqb name "arguments" || String.eqb name "caller").

(** The host of the tests, with a logger that has no [log] method of its
    own. *)
Definition test_host : Host :=
  {| encodeURIComponent := encode_unreserved;
     to_string := to_string_prim;
     JSON_stringify := stringify_flat;
     debug_log_defined := false;
     builtin_member := standard_member;
     builtin_readonly := standard_readonly |}.

(** A server that knows no document: it answers 404 at the URL of the
    request. *)
Definition not_found (url : string) : Response :=
  {| status := 404; statusText := "Not Found";
     response_url := url; response_headers := [];
     json := JsonReturns (Rejected (Raised (VStr "SyntaxError"))) |}.

Definition empty_server (sv : unit) (request : Request)
  : unit * settled error Response :=
  (tt, Fulfilled (not_found (req_url request))).

(** A server that redirects every request to one page, which it answers
    with 404: [fetch] follows the redirection, and the response has the
    URL of that page. *)
Definition redirecting_server (sv : unit) (request : Request)
  : unit * settled error Response :=
  (tt, Fulfilled (not_found "http://127.0.0.1:8666/error")).

(** A server that answers 200 with a body that is not JSON. *)
Definition garbled (url : string) : Response :=
  {| status := 200; statusText := "OK";
     response_url := url; response_headers := [];
     json := JsonReturns (Rejected (Raised (VStr "SyntaxError"))) |}.

Definition garbling_server (sv : unit) (request : Request)
  : unit * settled error Response :=
  (tt, Fulfilled (garbled (req_url request))).

Definition byA : Index := {| index_name := "byA" |}.

Definition TestObject : Ctor := {| fromJSON := fun v => Normal v |}.

(** [INDEX_MAP = new IndexMap().addSimpleField(byA, 'a')] in a new
    world. *)
Definition index_world : loc * world unit :=
  let '(m, w) :=
    new_IndexMap {| objects := ∅; clients := ∅; index_maps := ∅;
                    console := []; sent := []; server := tt |} in
  (m, (IndexMap_addSimpleField test_host w m byA "a").1).

Definition INDEX_MAP : loc := index_world.1.

(** [client = new Client('http://127.0.0.1:8666')] in that world, and
    [store = client.getStore('', TestObject, INDEX_MAP)]. *)
Definition test_world : loc * world unit :=
  new_Client index_world.2 "http://127.0.0.1:8666" [] [].

Definition test_store : Store :=
  getStore test_world.1 "" TestObject INDEX_MAP.

Definition test_find (fetch : unit -> Request -> unit * settled error Response)
    (key : val) : result unit :=
  find test_host fetch test_store test_world.2 key.

(** What an operation may do to the world: send at most one request, log,
    and allocate; the clients and the objects that exist stay as they
    are. *)
Definition grows {ServerState : Type} (w w1 : world ServerState) : Prop :=
  clients w1 = clients w /\
  objects w ⊆ objects w1 /\
  (exists lines, console w1 = (console w ++ lines)%list) /\
  (exists reqs, sent w1 = (sent w ++ reqs)%list /\ (length reqs <= 1)%nat).

(** A host whose logger has a [log] method. *)
Definition logging_host : Host :=
  {| encodeURIComponent := encode_unreserved;
     to_string := to_string_prim;
     JSON_stringify := stringify_flat;
     debug_log_defined := true;
     builtin_member := standard_member;
     builtin_readonly := standard_readonly |}.

(** A server that answers every request with the given status, and a body
    that is not JSON. *)
Definition status_server (code : Z) (text : string) (sv : unit)
    (request : Request) : unit * settled error Response :=
  (tt, Fulfilled {| status := code; statusText := text;
                    response_url := req_url request; response_headers := [];
                    json := JsonReturns (Rejected (Raised (VStr "SyntaxError"))) |}).

(** A server that answers 200 with a body that parses to [v]. *)
Definition json_server (v : val) (sv : unit) (request : Request)
  : unit * settled error Response :=
  (tt, Fulfilled {| status := 200; statusText := "OK";
                    response_url := req_url request; response_headers := [];
                    json := JsonReturns (Fulfilled v) |}).

(** No server: the request fails. *)
Definition offline (sv : unit) (request : Request)
  : unit * settled error Response :=
  (tt, Rejected (Raised (VStr "TypeError: Failed to fetch"))).

(** The test world with a document at location 1 and, at location 2, an
    array holding it. *)
Definition doc_world : world unit :=
  set_objects test_world.2
    (<[1%positive := HObject [("uid", VNum 1); ("a", VStr "hello");
                              ("b", VStr "world")]]>
       {[2%positive := HArray [VRef 1%positive]]}).


(** The client of the test world, as [new Client] builds it. *)
Definition test_client : Client :=
  {| base_url := "http://127.0.0.1:8666";
     options := DEFAULT_OPTIONS;
     headers := DEFAULT_HEADERS |}.



Definition json_ok (url : string) (v : val) : Response :=
  {| status := 200; statusText := "OK";
     response_url := url; response_headers := [];
     json := JsonReturns (Fulfilled v) |}.

(** What a world keeps when only an index map changes. *)
Definition same_but_index_maps {ServerState : Type} (w w1 : world ServerState)
  : Prop :=
  objects w1 = objects w /\ clients w1 = clients w /\
  console w1 = console w /\ sent w1 = sent w /\ server w1 = server w.

(** An index function of the name of the method of [IndexMap]. *)
Definition shadowing : Index := {| index_name := "addSimpleField" |}.

End RestStore.

(** * Properties *)

(** ** The in-memory store *)

Module MapStoreFacts.

Import MapStore.

Section Facts.

Variable Ctor : Type.
Variable Operation : Type.
Variable js_lt : val -> val -> bool.
Variable patch_patch :
  Patch Operation -> val -> options Ctor -> heap -> heap * completion val.

(** *** Facts about [Map] and the heap *)

Lemma map_get_set (es : list (val * val)) (k v : val) :
  map_get (map_set es k v) k = v.
Proof.
  induction es as [|[k' v'] es IH]; simpl.
  - by rewrite bool_decide_eq_true_2.
  - destruct (bool_decide (k' = k)) eqn:E; simpl; rewrite E; done.
Qed.

Lemma map_has_set (es : list (val * val)) (k v : val) :
  map_has (map_set es k v) k = true.
Proof.
  induction es as [|[k' v'] es IH]; simpl.
  - by rewrite bool_decide_eq_true_2.
  - destruct (bool_decide (k' = k)) eqn:E; simpl; rewrite E; done.
Qed.

Lemma map_get_set_ne (es : list (val * val)) (k k0 v : val) :
  k <> k0 -> map_get (map_set es k v) k0 = map_get es k0.
Proof.
  intros Hne. induction es as [|[k' v'] es IH]; simpl.
  - by rewrite bool_decide_eq_false_2.
  - destruct (bool_decide (k' = k)) eqn:E; simpl.
    + apply bool_decide_eq_true_1 in E; subst k'.
      by rewrite bool_decide_eq_false_2.
    + by rewrite IH.
Qed.

Lemma as_map_inv (h : heap) (m : val) (l : loc) (es : list (val * val)) :
  as_map h m = Normal (l, es) <-> m = VRef l /\ h !! l = Some (HMap es).
Proof.
  unfold as_map. split.
  - destruct m as [| | | | |l0]; try discriminate.
    destruct (h !! l0) as [[| |es0]|] eqn:E; try discriminate.
    intros [= -> ->]. done.
  - intros [-> ->]. done.
Qed.

Lemma as_map_throws (h : heap) (m : val) (e : error) :
  as_map h m = Throw e -> e = TypeError.
Proof.
  unfold as_map. destruct m as [| | | | |l0]; try congruence.
  destruct (h !! l0) as [[| |es0]|]; congruence.
Qed.

Lemma alloc_spec (h : heap) (o : hobj) :
  h !! (alloc h o).1 = None /\ (alloc h o).2 = <[(alloc h o).1 := o]> h.
Proof.
  unfold alloc; simpl. split; [|done].
  apply not_elem_of_dom, is_fresh.
Qed.

(** A property name produced by [for ... in] has no [uid]. *)
Lemma for_in_keys_uid (h : heap) (elems : list val) :
  Forall (fun item => get_field h item "uid" = Normal VUndefined)
         (for_in_keys elems).
Proof.
  unfold for_in_keys. apply Forall_forall. intros x Hx.
  apply list_elem_of_fmap in Hx as (i & -> & _). done.
Qed.

Lemma for_in_keys_length (elems : list val) :
  length (for_in_keys elems) = length elems.
Proof. unfold for_in_keys. by rewrite length_map, length_seq. Qed.

(** *** [update] then [find] *)

(** When the document is looked up under its [uid], [find] gives back
    the very reference that [update] stored. *)
Lemma update_find_uid (s : Store Ctor) (h : heap) (d k : val) (l : loc)
    (es : list (val * val)) :
  as_map h (idMap s) = Normal (l, es) ->
  get_field h d "uid" = Normal k ->
  exists s1 h1,
    update s h d = (s1, h1, Normal (Resolved (VBool true))) /\
    find s1 h1 k = (s1, h1, Normal (Resolved d)).
Proof.
  intros Hm Hk. unfold update. rewrite Hm, Hk.
  eexists _, _. split; [reflexivity|].
  apply as_map_inv in Hm as [Hid Hl].
  unfold find.
  assert (Hid' : idMap (if negb (map_has es k) then set_sorted s false else s)
                 = VRef l) by (by destruct (negb _)).
  rewrite Hid'. simpl. rewrite lookup_insert_eq, map_get_set.
  unfold strict_equals.
  destruct d; simpl in Hk; try discriminate; reflexivity.
Qed.

(** [update] leaves the lookup of every other key as it was: looking a
    document up under a [key(d)] that is not [d.uid] finds what was there
    before. *)
Lemma update_find_other (s : Store Ctor) (h : heap) (d u k : val) (l : loc)
    (es : list (val * val)) :
  as_map h (idMap s) = Normal (l, es) ->
  get_field h d "uid" = Normal u ->
  k <> u ->
  exists s1 h1,
    update s h d = (s1, h1, Normal (Resolved (VBool true))) /\
    (find s1 h1 k).2 = (find s h k).2.
Proof.
  intros Hm Hu Hne. unfold update. rewrite Hm, Hu.
  eexists _, _. split; [reflexivity|].
  unfold find. rewrite Hm.
  apply as_map_inv in Hm as [Hid Hl].
  assert (Hid' : idMap (if negb (map_has es u) then set_sorted s false else s)
                 = VRef l) by (by destruct (negb _)).
  rewrite Hid'. simpl. rewrite lookup_insert_eq.
  rewrite map_get_set_ne by done.
  by destruct (strict_equals _ _).
Qed.

(** *** [remove] *)

(** [!x === undefined] compares a boolean with [undefined]. *)
Lemma remove_guard_false (v : val) :
  strict_equals (VBool (negb (to_boolean v))) VUndefined = false.
Proof. reflexivity. Qed.

Lemma remove_never_deletes (s : Store Ctor) (h : heap) (k : val) :
  remove s h k =
  (s, h, match as_map h (idMap s) with
         | Normal _ => Normal (Resolved (VBool false))
         | Throw e => Throw e
         end).
Proof.
  unfold remove. destruct (as_map h (idMap s)) as [[m es]|e]; [|done].
  by rewrite remove_guard_false.
Qed.

(** *** The read operations *)

Lemma preserves_refl (s : Store Ctor) (h : heap) : preserves s h h.
Proof. split; done. Qed.

Lemma preserves_weaken (s : Store Ctor) (h h1 : heap) (l : loc)
    (es : list (val * val)) :
  as_map h (idMap s) = Normal (l, es) -> h ⊆ h1 -> preserves s h h1.
Proof.
  intros Hm Hsub. split; [done|]. rewrite Hm.
  apply as_map_inv in Hm as [Hid Hl]. apply as_map_inv.
  split; [done|]. by eapply lookup_weaken.
Qed.

Lemma all_spec (s : Store Ctor) (h : heap) (l : loc) (es : list (val * val)) :
  as_map h (idMap s) = Normal (l, es) ->
  all s h = (s, <[fresh (dom h) := HArray (map_values es)]> h,
             Normal (Resolved (VRef (fresh (dom h))))).
Proof. intros Hm. unfold all. by rewrite Hm. Qed.

Lemma findAll_spec (s : Store Ctor) (h : heap) (l : loc) (es : list (val * val))
    (index : heap -> val -> val -> bool) (value : val) :
  as_map h (idMap s) = Normal (l, es) ->
  let h1 := <[fresh (dom h) := HArray (map_values es)]> h in
  findAll s h index value =
  (s, <[fresh (dom h1) := HArray (List.filter (index h1 value) (map_values es))]> h1,
   Normal (Resolved (VRef (fresh (dom h1))))).
Proof.
  intros Hm. unfold findAll. rewrite (all_spec _ _ _ _ Hm). simpl.
  by rewrite lookup_insert_eq.
Qed.

Lemma fresh_insert_subseteq (h : heap) (o : hobj) :
  h ⊆ <[fresh (dom h) := o]> h.
Proof. apply insert_subseteq, not_elem_of_dom, is_fresh. Qed.

Lemma fresh_lookup (h : heap) : h !! fresh (dom h) = None.
Proof. apply not_elem_of_dom, is_fresh. Qed.

Lemma find_unchanged (s : Store Ctor) (h : heap) (k : val) :
  exists r, find s h k = (s, h, r).
Proof.
  unfold find. destruct (as_map h (idMap s)) as [[m es]|e]; [|eauto].
  destruct (strict_equals _ _); eauto.
Qed.

(** C10. The read operations [find], [all] and [findAll] leave the store
    (its collection field, sorted flag, comparator and key function) and
    every existing object, the collection included, as they were; the
    array that [all] and [findAll] resolve with is a new object, and
    nothing the caller writes into it reaches the store. *)
Theorem reads_have_no_side_effects (s : Store Ctor) (h : heap) (k : val)
    (index : heap -> val -> val -> bool) (value : val) :
  (exists r, find s h k = (s, h, r)) /\
  (exists h1 r,
      all s h = (s, h1, r) /\ preserves s h h1 /\
      forall v, r = Normal (Resolved v) -> fresh_array s h h1 v) /\
  (exists h1 r,
      findAll s h index value = (s, h1, r) /\ preserves s h h1 /\
      forall v, r = Normal (Resolved v) -> fresh_array s h h1 v).
Proof.
  split; [|split].
  - apply find_unchanged.
  - destruct (as_map h (idMap s)) as [[l es]|e] eqn:Hm.
    + rewrite (all_spec _ _ _ _ Hm).
      eexists _, _. split; [reflexivity|].
      pose proof (fresh_insert_subseteq h (HArray (map_values es))) as Hsub.
      split; [by eapply preserves_weaken|].
      intros v [= <-]. eexists _, _.
      split; [reflexivity|]. split; [apply fresh_lookup|].
      split; [apply lookup_insert_eq|].
      intros o. eapply preserves_weaken; [done|].
      rewrite insert_insert_eq. apply fresh_insert_subseteq.
    + unfold all. rewrite Hm. eexists _, _. split; [reflexivity|].
      split; [apply preserves_refl|]. discriminate.
  - destruct (as_map h (idMap s)) as [[l es]|e] eqn:Hm.
    + rewrite (findAll_spec _ _ _ _ index value Hm).
      set (h1 := <[fresh (dom h) := HArray (map_values es)]> h).
      assert (Hsub1 : h ⊆ h1) by apply fresh_insert_subseteq.
      eexists _, _. split; [reflexivity|].
      split.
      { eapply preserves_weaken; [done|].
        etrans; [exact Hsub1|]. apply fresh_insert_subseteq. }
      intros v [= <-]. eexists _, _.
      split; [reflexivity|].
      split.
      { destruct (h !! fresh (dom h1)) as [o|] eqn:E; [|done].
        pose proof (lookup_weaken _ _ _ _ E Hsub1) as E1.
        by rewrite fresh_lookup in E1. }
      split; [apply lookup_insert_eq|].
      intros o. eapply preserves_weaken; [done|].
      rewrite insert_insert_eq.
      etrans; [exact Hsub1|]. apply fresh_insert_subseteq.
    + unfold findAll, all. rewrite Hm. eexists _, _.
      split; [reflexivity|]. split; [apply preserves_refl|]. discriminate.
Qed.

(** *** [bulk] *)

(** C4. When the patch engine throws, [bulk] throws the same error, and
    the store is the one it was: the collection field, still unassigned,
    and the sorted flag have their old values. *)
Theorem bulk_engine_failure (s : Store Ctor) (h h1 : heap) (p : Patch Operation)
    (e : error) :
  patch_patch p (idMap s) (bulk_options s) h = (h1, Throw e) ->
  exists s1,
    bulk patch_patch s h p = (s1, h1, Throw e) /\
    s1 = s /\ idMap s1 = idMap s /\ sorted s1 = sorted s.
Proof.
  intros He. exists s. unfold bulk. rewrite He. done.
Qed.

(** C8. [bulk] calls the engine on the current collection with the
    current sorted flag in the options; when the engine returns, its
    result is the new collection, the sorted flag is set, and the promise
    resolves with the number of entries of the patch.  The patch may be
    empty. *)
Theorem bulk_adopts_engine_result (s : Store Ctor) (h h1 : heap)
    (p : Patch Operation) (m : val) :
  patch_patch p (idMap s)
    {| o_value := logValue;
       o_collectionElementType := type s;
       o_sorted := sorted s |} h = (h1, Normal m) ->
  bulk patch_patch s h p =
  ({| idMap := m; key := key s; comparator := comparator s;
      sorted := true; type := type s |},
   h1,
   Normal (Resolved (VNum (Z.of_nat (length (data p)))))).
Proof.
  intros He. unfold bulk, bulk_options. rewrite He. done.
Qed.

(** *** [removeAll] *)

Lemma delete_undefined_S (n : nat) (es : list (val * val)) :
  delete_undefined (S n) es = delete_undefined n (map_delete es VUndefined).
Proof.
  exact (Nat.iter_succ_r n (fun es => map_delete es VUndefined) es).
Qed.

Lemma removeAll_loop (s : Store Ctor) (l : loc) (items : list val) :
  idMap s = VRef l ->
  forall (h : heap) (es : list (val * val)),
    h !! l = Some (HMap es) ->
    Forall (fun item => get_field h item "uid" = Normal VUndefined) items ->
    fold_left (removeAll_step s) items (h, Normal tt) =
    (<[l := HMap (delete_undefined (length items) es)]> h, Normal tt).
Proof.
  intros Hid. induction items as [|item items IH]; intros h es Hl Hitems.
  - simpl. by rewrite insert_id.
  - apply Forall_cons in Hitems as [Hitem Hitems].
    change (length (item :: items)) with (S (length items)).
    rewrite delete_undefined_S.
    simpl. rewrite Hid. simpl. rewrite Hl, Hitem.
    rewrite (IH _ (map_delete es VUndefined)).
    + by rewrite insert_insert_eq.
    + apply lookup_insert_eq.
    + eapply Forall_impl; [exact Hitems|].
      intros x Hx. destruct x as [| | | | |l0]; try done.
      simpl in *. destruct (decide (l = l0)) as [->|Hne].
      * by rewrite lookup_insert_eq.
      * by rewrite lookup_insert_ne.
Qed.

Lemma removeAll_spec (s : Store Ctor) (h : heap) (l : loc)
    (es : list (val * val))
    (index : heap -> val -> val -> bool) (value : val) :
  as_map h (idMap s) = Normal (l, es) ->
  let h1 := <[fresh (dom h) := HArray (map_values es)]> h in
  let matched := List.filter (index h1 value) (map_values es) in
  let h2 := <[fresh (dom h1) := HArray matched]> h1 in
  removeAll s h index value =
  (s,
   match matched with
   | [] => h2
   | _ => <[l := HMap (delete_undefined (length matched) es)]> h2
   end,
   Normal (Resolved (VBool (negb (bool_decide (matched = [])))))).
Proof.
  intros Hm h1 matched h2. unfold removeAll.
  rewrite (findAll_spec _ _ _ _ index value Hm). fold h1 matched h2.
  replace (h2 !! fresh (dom h1)) with (Some (HArray matched))
    by (symmetry; apply lookup_insert_eq).
  destruct matched as [|x matched'] eqn:E; [done|].
  rewrite <- E.
  replace (Z.of_nat (length matched) =? 0) with false
    by (rewrite E; reflexivity).
  apply as_map_inv in Hm as [Hid Hl].
  assert (Hl2 : h2 !! l = Some (HMap es)).
  { assert (Hsub : h ⊆ h2).
    { etrans; [apply (fresh_insert_subseteq h)|].
      apply (fresh_insert_subseteq h1). }
    by eapply lookup_weaken. }
  rewrite (removeAll_loop s l _ Hid h2 es Hl2 (for_in_keys_uid _ _)).
  rewrite for_in_keys_length. rewrite E. done.
Qed.

(** *** Comparator order is kept *)

Lemma get_field_insert (h : heap) (a : loc) (o : hobj) (v : val)
    (name : string) :
  is_object (h !! a) = false -> is_object (Some o) = false ->
  get_field (<[a := o]> h) v name = get_field h v name.
Proof.
  intros Hold Hnew. destruct v as [| | | | |l]; try done. simpl.
  destruct (decide (a = l)) as [->|Hne].
  - rewrite lookup_insert_eq.
    destruct o; try discriminate;
      destruct (h !! l) as [[| |]|]; try discriminate; done.
  - by rewrite lookup_insert_ne.
Qed.

Lemma forallb_precedes_ext (cmp : heap -> val -> val -> completion Z)
    (h h' : heap) (a a' : val) (vs vs' : list val) :
  uid_determined cmp ->
  get_field h a "uid" = get_field h' a' "uid" ->
  Forall2 (fun v v' => get_field h v "uid" = get_field h' v' "uid") vs vs' ->
  forallb (precedes cmp h a) vs = forallb (precedes cmp h' a') vs'.
Proof.
  intros Hcmp Ha Hvs. induction Hvs as [|v v' vs vs' Hv Hvs IH]; [done|].
  simpl. rewrite IH. f_equal. unfold precedes.
  by rewrite (Hcmp h h' a a' v v').
Qed.

Lemma ordered_ext (cmp : heap -> val -> val -> completion Z)
    (h h' : heap) (vs vs' : list val) :
  uid_determined cmp ->
  Forall2 (fun v v' => get_field h v "uid" = get_field h' v' "uid") vs vs' ->
  ordered cmp h vs = ordered cmp h' vs'.
Proof.
  intros Hcmp Hvs. induction Hvs as [|v v' vs vs' Hv Hvs IH]; [done|].
  simpl. rewrite IH. f_equal. by apply forallb_precedes_ext.
Qed.

Lemma Forall2_same_uid (h h' : heap) (vs : list val) :
  (forall v, get_field h' v "uid" = get_field h v "uid") ->
  Forall2 (fun v v' => get_field h' v "uid" = get_field h v' "uid") vs vs.
Proof. intros H. induction vs; constructor; auto. Qed.

Lemma keyed_by_uid_ext (h h' : heap) (es : list (val * val)) :
  (forall v, get_field h' v "uid" = get_field h v "uid") ->
  keyed_by_uid h es -> keyed_by_uid h' es.
Proof.
  intros H Hkeyed. unfold keyed_by_uid in *.
  eapply Forall_impl; [exact Hkeyed|].
  intros e He. simpl. by rewrite H.
Qed.

(** Replacing the document of a key that is present keeps the [uid] at
    every position. *)
Lemma map_set_present (h : heap) (es : list (val * val)) (k d : val) :
  keyed_by_uid h es -> map_has es k = true ->
  get_field h d "uid" = Normal k ->
  Forall2 (fun v v' => get_field h v "uid" = get_field h v' "uid")
          (map_values (map_set es k d)) (map_values es).
Proof.
  intros Hkeyed Hhas Hd.
  induction es as [|[k' v'] es IH]; [discriminate|].
  apply Forall_cons in Hkeyed as [Hk' Hkeyed]. simpl in *.
  destruct (bool_decide (k' = k)) eqn:E; simpl.
  - apply bool_decide_eq_true_1 in E; subst k'.
    constructor; [congruence|].
    by apply Forall2_same_uid.
  - constructor; [done|]. by apply IH.
Qed.

Lemma map_set_keyed (h : heap) (es : list (val * val)) (k d : val) :
  keyed_by_uid h es -> get_field h d "uid" = Normal k ->
  keyed_by_uid h (map_set es k d).
Proof.
  intros Hkeyed Hd. induction es as [|[k' v'] es IH]; simpl.
  - by repeat constructor.
  - apply Forall_cons in Hkeyed as [Hk' Hkeyed].
    destruct (bool_decide (k' = k)) eqn:E.
    + apply bool_decide_eq_true_1 in E; subst k'. by constructor.
    + constructor; [done|]. by apply IH.
Qed.

Lemma map_delete_keyed (h : heap) (es : list (val * val)) (k : val) :
  keyed_by_uid h es -> keyed_by_uid h (map_delete es k).
Proof.
  intros Hkeyed. induction es as [|[k' v'] es IH]; [done|].
  apply Forall_cons in Hkeyed as [Hk' Hkeyed]. simpl.
  destruct (bool_decide (k' = k)); [done|].
  constructor; [done|]. by apply IH.
Qed.

Lemma forallb_map_delete (f : val -> bool) (es : list (val * val))
    (k : val) :
  forallb f (map_values es) = true ->
  forallb f (map_values (map_delete es k)) = true.
Proof.
  induction es as [|[k' v'] es IH]; [done|]. simpl.
  intros [Hv Hes]%andb_prop.
  destruct (bool_decide (k' = k)); [done|].
  simpl. rewrite Hv. by apply IH.
Qed.

Lemma map_delete_ordered (cmp : heap -> val -> val -> completion Z)
    (h : heap) (es : list (val * val)) (k : val) :
  ordered cmp h (map_values es) = true ->
  ordered cmp h (map_values (map_delete es k)) = true.
Proof.
  induction es as [|[k' v'] es IH]; [done|]. simpl.
  intros [Hv Hes]%andb_prop.
  destruct (bool_decide (k' = k)); [done|].
  simpl. rewrite (forallb_map_delete _ _ _ Hv). by apply IH.
Qed.

Lemma delete_undefined_keeps (cmp : heap -> val -> val -> completion Z)
    (h : heap) (n : nat) (es : list (val * val)) :
  keyed_by_uid h es ->
  keyed_by_uid h (delete_undefined n es) /\
  (ordered cmp h (map_values es) = true ->
   ordered cmp h (map_values (delete_undefined n es)) = true).
Proof.
  intros Hkeyed. induction n as [|n [IHk IHo]]; [done|]. simpl. split.
  - by apply map_delete_keyed.
  - intros Ho. apply map_delete_ordered. by apply IHo.
Qed.

Section Invariant.

Variable cmp : heap -> val -> val -> completion Z.
Hypothesis cmp_uid : uid_determined cmp.
Hypothesis engine_ok : engine_contract patch_patch cmp.

Lemma invariant_write (s s1 : Store Ctor) (h : heap) (a : loc) (o : hobj)
    (l : loc) (es1 : list (val * val)) :
  is_object (h !! a) = false -> is_object (Some o) = false ->
  comparator s1 = cmp -> idMap s1 = VRef l ->
  <[a := o]> h !! l = Some (HMap es1) ->
  keyed_by_uid h es1 ->
  (sorted s1 = true -> ordered cmp h (map_values es1) = true) ->
  store_invariant cmp s1 (<[a := o]> h).
Proof.
  intros Hold Hnew Hcmp Hid Hl Hkeyed Hord.
  assert (Huid : forall v,
             get_field (<[a := o]> h) v "uid" = get_field h v "uid")
    by (intros v; by apply get_field_insert).
  split; [done|]. exists l, es1. repeat split; try done.
  - by eapply keyed_by_uid_ext.
  - intros Hs. rewrite <- (Hord Hs).
    apply ordered_ext; [done|]. by apply Forall2_same_uid.
Qed.

Lemma invariant_alloc (s : Store Ctor) (h : heap) (elems : list val) :
  store_invariant cmp s h ->
  store_invariant cmp s (<[fresh (dom h) := HArray elems]> h).
Proof.
  intros [Hcmp (l & es & Hid & Hl & Hkeyed & Hord)].
  eapply (invariant_write s s h _ _ l es); try done.
  - by rewrite fresh_lookup.
  - eapply lookup_weaken; [exact Hl|]. apply fresh_insert_subseteq.
Qed.

Lemma invariant_step (s s1 : Store Ctor) (h h1 : heap) (c : call Operation)
    (r : completion promise) :
  store_invariant cmp s h ->
  run_call patch_patch s h c = (s1, h1, r) ->
  store_invariant cmp s1 h1.
Proof.
  intros Hinv Hrun.
  pose proof Hinv as [Hcmp (l & es & Hid & Hl & Hkeyed & Hord)].
  assert (Hm : as_map h (idMap s) = Normal (l, es))
    by (by apply as_map_inv).
  destruct c as [k| |index value|d|k|index value|p]; simpl in Hrun.
  - destruct (find_unchanged s h k) as [r' Hfind].
    rewrite Hfind in Hrun. by injection Hrun as <- <- _.
  - rewrite (all_spec _ _ _ _ Hm) in Hrun. injection Hrun as <- <- _.
    by apply invariant_alloc.
  - rewrite (findAll_spec _ _ _ _ index value Hm) in Hrun.
    injection Hrun as <- <- _.
    by do 2 apply invariant_alloc.
  - unfold update in Hrun. rewrite Hm in Hrun.
    destruct (get_field h d "uid") as [uid|e] eqn:Hd.
    + injection Hrun as <- <- _.
      eapply (invariant_write s _ h l _ l).
      * by rewrite Hl.
      * done.
      * by destruct (negb _).
      * by destruct (negb _).
      * apply lookup_insert_eq.
      * by apply map_set_keyed.
      * destruct (map_has es uid) eqn:Hhas; simpl; [|discriminate].
        intros Hs. rewrite <- (Hord Hs).
        apply ordered_ext; [done|]. by apply map_set_present.
    + by injection Hrun as <- <- _.
  - rewrite remove_never_deletes in Hrun. by injection Hrun as <- <- _.
  - rewrite (removeAll_spec _ _ _ _ index value Hm) in Hrun.
    injection Hrun as <- <- _.
    set (h1' := <[fresh (dom h) := HArray (map_values es)]> h).
    set (matched := List.filter (index h1' value) (map_values es)).
    assert (Hinv2 : store_invariant cmp s
              (<[fresh (dom h1') := HArray matched]> h1'))
      by (by do 2 apply invariant_alloc).
    destruct matched as [|x matched']; [done|].
    destruct Hinv2 as [_ (l2 & es2 & Hid2 & Hl2 & Hkeyed2 & Hord2)].
    assert (l2 = l) by congruence. subst l2.
    assert (es2 = es); [|subst es2].
    { assert (Hsub : h ⊆ <[fresh (dom h1') := HArray (x :: matched')]> h1').
      { etrans; [apply (fresh_insert_subseteq h)|].
        apply (fresh_insert_subseteq h1'). }
      pose proof (lookup_weaken _ _ _ _ Hl Hsub). congruence. }
    destruct (delete_undefined_keeps cmp _ (length (x :: matched')) es
                Hkeyed2) as [Hk Ho].
    eapply (invariant_write s s _ l _ l); try done.
    * by rewrite Hl2.
    * apply lookup_insert_eq.
    * intros Hs. apply Ho. by apply Hord2.
  - unfold bulk in Hrun.
    destruct (patch_patch p (idMap s) (bulk_options s) h)
      as [h' [v|e]] eqn:Hp.
    + injection Hrun as <- <- _.
      apply engine_ok in Hp as (l' & es' & -> & Hl' & Hkeyed' & Hord').
      split; [done|]. exists l', es'. done.
    + injection Hrun as <- <- _.
      apply engine_ok in Hp. by subst h'.
Qed.

Lemma invariant_new (h0 : heap) (T : Ctor)
    (key : heap -> val -> completion val) :
  store_invariant cmp (new_Store h0 T key cmp).1 (new_Store h0 T key cmp).2.
Proof.
  split; [done|]. exists (fresh (dom h0)), []. simpl.
  split; [done|]. split; [apply lookup_insert_eq|].
  split; [constructor|done].
Qed.

Lemma invariant_reachable (s0 s : Store Ctor) (h0 h : heap) :
  store_invariant cmp s0 h0 ->
  reachable patch_patch s0 h0 s h ->
  store_invariant cmp s h.
Proof.
  intros H0 Hreach. induction Hreach as [|s h c s1 h1 r _ IH Hrun];
    [done|]. by eapply invariant_step.
Qed.

(** C5, as the code has it.  For a comparator that looks at the [uid]
    of its arguments only (the default one does) and a patch engine
    that returns its collection in comparator order with every entry
    keyed by its [uid], and that leaves the heap alone when it fails:
    in every state reached from a new store by [find], [all],
    [findAll], [update], [remove], [removeAll] and [bulk], a set sorted
    flag means the collection iterates in comparator order.  There,
    [update] leaves the flag set exactly when it was set and the key
    was present, and a [bulk] that the engine completes sets it. *)
Theorem sorted_flag_sound (h0 : heap) (T : Ctor)
    (key : heap -> val -> completion val) (s : Store Ctor) (h : heap) :
  reachable patch_patch
    (new_Store h0 T key cmp).1 (new_Store h0 T key cmp).2 s h ->
  sorted_invariant s h /\
  (forall d uid,
      get_field h d "uid" = Normal uid ->
      exists l es,
        as_map h (idMap s) = Normal (l, es) /\
        sorted (update s h d).1.1 = sorted s && map_has es uid) /\
  (forall p h1 m,
      patch_patch p (idMap s) (bulk_options s) h = (h1, Normal m) ->
      sorted (bulk patch_patch s h p).1.1 = true).
Proof.
  intros Hreach.
  pose proof (invariant_reachable _ _ _ _ (invariant_new h0 T key) Hreach)
    as [Hcmp (l & es & Hid & Hl & Hkeyed & Hord)].
  split; [|split].
  - intros Hs. exists l, es. rewrite Hcmp. auto.
  - intros d uid Hd. exists l, es.
    assert (Hm : as_map h (idMap s) = Normal (l, es))
      by (by apply as_map_inv).
    split; [done|]. unfold update. rewrite Hm, Hd. simpl.
    destruct (map_has es uid); simpl; [by rewrite andb_true_r|].
    by rewrite andb_false_r.
  - intros p h1 m Hp. unfold bulk. by rewrite Hp.
Qed.

End Invariant.

Lemma reachable_run_calls (s0 : Store Ctor) (h0 : heap)
    (cs : list (call Operation)) :
  forall s h, reachable patch_patch s0 h0 s h ->
  reachable patch_patch s0 h0
    (run_calls patch_patch s h cs).1 (run_calls patch_patch s h cs).2.
Proof.
  induction cs as [|c cs IH]; intros s h Hreach; [done|]. simpl.
  destruct (run_call patch_patch s h c) as [[s1 h1] r] eqn:Hrun.
  apply IH. by eapply reachable_step.
Qed.

(** The default comparator on the default key reads the [uid]s only. *)
Lemma defaultComparator_uid_determined :
  uid_determined (defaultComparator js_lt default_key).
Proof.
  intros h h' a a' b b' Ha Hb. unfold defaultComparator, default_key.
  by rewrite Ha, Hb.
Qed.

End Facts.

Local Open Scope string_scope.

(** C1. The README's store, built with [object => object.key]: [update]
    files the document under [object.uid], which is [undefined], and
    [find(key(d))] rejects with [DoesNotExist]. *)
Theorem update_find_custom_key (js_lt : val -> val -> bool) :
  let s0 := new_Store_key js_lt readme_heap "Object" by_key in
  let u := update s0.1 s0.2 (VRef 1%positive) in
  by_key readme_heap (VRef 1%positive) = Normal (VNum 1) /\
  u.2 = Normal (Resolved (VBool true)) /\
  as_map u.1.2 (idMap u.1.1) =
    Normal (2%positive, [(VUndefined, VRef 1%positive)]) /\
  (find u.1.1 u.1.2 (VNum 1)).2 = Normal (Rejected (DoesNotExist (VNum 1))).
Proof. vm_compute. done. Qed.

(** C2. [remove] of a key that is present resolves with [false] and the
    document stays in the store. *)
Theorem remove_present_key :
  let '(s, h) := test_store in
  (find s h (VNum 1)).2 = Normal (Resolved (VRef 1%positive)) /\
  remove s h (VNum 1) = (s, h, Normal (Resolved (VBool false))) /\
  (find (remove s h (VNum 1)).1.1 (remove s h (VNum 1)).1.2 (VNum 1)).2 =
    Normal (Resolved (VRef 1%positive)).
Proof. vm_compute. done. Qed.

(** C3. [removeAll(byA, 'hello')] on the three test documents resolves with
    [true], and the two documents whose [a] is ['hello'] are still stored. *)
Theorem removeAll_keeps_matches :
  let '(s, h) := test_store in
  let r := removeAll s h byA (VStr "hello") in
  byA h (VStr "hello") (VRef 1%positive) = true /\
  byA h (VStr "hello") (VRef 2%positive) = true /\
  r.2 = Normal (Resolved (VBool true)) /\
  (find r.1.1 r.1.2 (VNum 1)).2 = Normal (Resolved (VRef 1%positive)) /\
  (find r.1.1 r.1.2 (VNum 2)).2 = Normal (Resolved (VRef 2%positive)) /\
  as_map r.1.2 (idMap r.1.1) = as_map h (idMap s).
Proof. vm_compute. done. Qed.

Lemma bulk_engine_failure_witness :
  exists s1,
    bulk failing_engine test_store.1 test_store.2 test_patch =
      (s1, test_store.2, Throw (Raised (VStr "cannot apply patch"))) /\
    s1 = test_store.1 /\
    idMap s1 = idMap test_store.1 /\
    sorted s1 = sorted test_store.1.
Proof.
  apply (bulk_engine_failure string operation failing_engine).
  reflexivity.
Defined.

Lemma bulk_adopts_engine_result_witness :
  sorted test_store.1 = false /\
  bulk same_engine test_store.1 test_store.2 test_patch =
    ({| idMap := idMap test_store.1;
        key := key test_store.1;
        comparator := comparator test_store.1;
        sorted := true;
        type := type test_store.1 |},
     test_store.2,
     Normal (Resolved (VNum 1))).
Proof.
  split; [reflexivity|].
  apply (bulk_adopts_engine_result string operation same_engine
           test_store.1 test_store.2 test_store.2 test_patch
           (idMap test_store.1)).
  reflexivity.
Defined.

(** *** The sorted flag *)

Lemma two_docs_engine_spec (u1 u2 : Z) (p : Patch operation) (m : val)
    (o : options string) (h : heap) :
  exists d1 d2 c h3,
    two_docs_engine u1 u2 p m o h = (h3, Normal (VRef c)) /\
    h3 !! c = Some (HMap [(VNum 1, VRef d1); (VNum 2, VRef d2)]) /\
    h3 !! d1 = Some (HObject [("uid", VNum u1); ("a", VNum 1)]) /\
    h3 !! d2 = Some (HObject [("uid", VNum u2); ("a", VNum 2)]).
Proof.
  unfold two_docs_engine, alloc.
  set (d1 := fresh (dom h)).
  set (h1 := <[d1 := _]> h).
  set (d2 := fresh (dom h1)).
  set (h2 := <[d2 := _]> h1).
  set (c := fresh (dom h2)).
  exists d1, d2, c, (<[c := HMap [(VNum 1, VRef d1); (VNum 2, VRef d2)]]> h2).
  assert (H1 : h1 !! d1 = Some (HObject [("uid", VNum u1); ("a", VNum 1)]))
    by apply lookup_insert_eq.
  assert (H2 : h2 !! d2 = Some (HObject [("uid", VNum u2); ("a", VNum 2)]))
    by apply lookup_insert_eq.
  assert (Hd : d2 <> d1).
  { intros E. pose proof (fresh_lookup h1) as Hf. fold d2 in Hf.
    rewrite E in Hf. congruence. }
  assert (H1' : h2 !! d1 = Some (HObject [("uid", VNum u1); ("a", VNum 1)])).
  { unfold h2. by rewrite lookup_insert_ne. }
  assert (Hc : forall l x, h2 !! l = Some x -> c <> l).
  { intros l x Hl E. pose proof (fresh_lookup h2) as Hf. fold c in Hf.
    rewrite E in Hf. congruence. }
  split; [reflexivity|]. split; [apply lookup_insert_eq|].
  split; (rewrite lookup_insert_ne; [done|by eapply Hc]).
Qed.

Lemma by_uid_uid_determined : uid_determined by_uid.
Proof.
  intros h h' a a' b b' Ha Hb. unfold by_uid. by rewrite Ha, Hb.
Qed.

Lemma two_docs_engine_ordered_by_a (u1 u2 : Z) :
  engine_ordered (two_docs_engine u1 u2) by_a.
Proof.
  intros p m o h h1 v Hp.
  destruct (two_docs_engine_spec u1 u2 p m o h)
    as (d1 & d2 & c & h3 & Heq & Hc & H1 & H2).
  rewrite Heq in Hp. injection Hp as <- <-.
  eexists _, _. split; [reflexivity|]. split; [exact Hc|].
  simpl. unfold precedes, by_a. simpl. by rewrite H1, H2.
Qed.

Lemma two_docs_engine_ordered_by_uid (u1 u2 : Z) :
  u1 <= u2 -> engine_ordered (two_docs_engine u1 u2) by_uid.
Proof.
  intros Hle p m o h h1 v Hp.
  destruct (two_docs_engine_spec u1 u2 p m o h)
    as (d1 & d2 & c & h3 & Heq & Hc & H1 & H2).
  rewrite Heq in Hp. injection Hp as <- <-.
  eexists _, _. split; [reflexivity|]. split; [exact Hc|].
  simpl. unfold precedes, by_uid. simpl. rewrite H1, H2. simpl.
  rewrite !andb_true_r. apply Z.leb_le. lia.
Qed.

Lemma two_docs_engine_contract_by_uid :
  engine_contract (two_docs_engine 1 2) by_uid.
Proof.
  intros p m o h h1 r Hp.
  destruct (two_docs_engine_spec 1 2 p m o h)
    as (d1 & d2 & c & h3 & Heq & Hc & H1 & H2).
  rewrite Heq in Hp. injection Hp as <- <-.
  eexists _, _. split; [reflexivity|]. split; [exact Hc|]. split.
  - repeat constructor; simpl; by rewrite ?H1, ?H2.
  - simpl. unfold precedes, by_uid. simpl. by rewrite H1, H2.
Qed.

(** C5 as stated fails.  The comparator orders by the field [a] and the
    engine returns its collection in that order; after [bulk], the [update]
    of the document with [uid] 1 replaces a stored document in place: the
    sorted flag stays set and the collection is out of order. *)
Lemma sorted_flag_unsound_custom_comparator :
  engine_ordered (two_docs_engine 1 2) by_a /\
  reachable (two_docs_engine 1 2)
    (new_Store stale_heap "Simple" default_key by_a).1
    (new_Store stale_heap "Simple" default_key by_a).2
    stale_state.1 stale_state.2 /\
  sorted stale_state.1 = true /\
  ~ sorted_invariant stale_state.1 stale_state.2.
Proof.
  split; [apply two_docs_engine_ordered_by_a|].
  split.
  { apply (reachable_run_calls string operation (two_docs_engine 1 2) _ _
             [Bulk test_patch; Update (VRef 1%positive)]).
    constructor. }
  split; [reflexivity|].
  intros H. destruct (H eq_refl) as (l & es & Hid & Hl & Hord).
  vm_compute in Hid. injection Hid as <-.
  vm_compute in Hl. injection Hl as <-.
  vm_compute in Hord. discriminate.
Qed.

(** The comparator reads the [uid]s only, but the engine files a document
    under a key that is not its [uid]: the [update] of the document with
    that [uid] replaces it in place, and the order is lost while the flag
    stays set. *)
Lemma sorted_flag_unsound_rekeyed_engine :
  uid_determined by_uid /\
  engine_ordered (two_docs_engine 5 6) by_uid /\
  reachable (two_docs_engine 5 6)
    (new_Store rekeyed_heap "Simple" default_key by_uid).1
    (new_Store rekeyed_heap "Simple" default_key by_uid).2
    rekeyed_state.1 rekeyed_state.2 /\
  sorted rekeyed_state.1 = true /\
  ~ sorted_invariant rekeyed_state.1 rekeyed_state.2.
Proof.
  split; [apply by_uid_uid_determined|].
  split; [by apply two_docs_engine_ordered_by_uid|].
  split.
  { apply (reachable_run_calls string operation (two_docs_engine 5 6) _ _
             [Bulk test_patch; Update (VRef 1%positive)]).
    constructor. }
  split; [reflexivity|].
  intros H. destruct (H eq_refl) as (l & es & Hid & Hl & Hord).
  vm_compute in Hid. injection Hid as <-.
  vm_compute in Hl. injection Hl as <-.
  vm_compute in Hord. discriminate.
Qed.

Lemma sorted_flag_sound_witness :
  let s0 := new_Store test_heap "Simple" default_key by_uid in
  let st := run_calls (two_docs_engine 1 2) s0.1 s0.2
              [Update (VRef 3%positive); Bulk test_patch;
               Update (VRef 1%positive); FindAll byA (VStr "hello")] in
  sorted st.1 = true /\ sorted_invariant st.1 st.2.
Proof.
  split; [reflexivity|].
  eapply (sorted_flag_sound string operation (two_docs_engine 1 2) by_uid
            by_uid_uid_determined two_docs_engine_contract_by_uid
            test_heap "Simple" default_key).
  apply (reachable_run_calls string operation (two_docs_engine 1 2)).
  constructor.
Defined.

(** ** More of the in-memory store *)

Section Coverage.

Variable Ctor : Type.
Variable Operation : Type.
Variable js_lt : val -> val -> bool.
Variable patch_patch :
  Patch Operation -> val -> options Ctor -> heap -> heap * completion val.

Lemma map_get_absent (es : list (val * val)) (k : val) :
  map_has es k = false -> map_get es k = VUndefined.
Proof.
  induction es as [|[k' v'] es IH]; [done|]. simpl.
  destruct (bool_decide (k' = k)); [discriminate|done].
Qed.

Lemma map_set_keys (es : list (val * val)) (k v : val) :
  map fst (map_set es k v) =
  if map_has es k then map fst es else (map fst es ++ [k])%list.
Proof.
  induction es as [|[k' v'] es IH]; [done|]. simpl.
  destruct (bool_decide (k' = k)) eqn:E; [done|]. simpl. rewrite IH.
  by destruct (map_has es k).
Qed.

Lemma map_set_values (es : list (val * val)) (k v : val) :
  In v (map_values (map_set es k v)) /\
  length (map_set es k v) =
  if map_has es k then length es else S (length es).
Proof.
  induction es as [|[k' v'] es [IHin IHlen]]; simpl.
  - split; [by left|done].
  - destruct (bool_decide (k' = k)) eqn:E; simpl.
    + split; [by left|done].
    + split; [by right|]. rewrite IHlen. by destruct (map_has es k).
Qed.

Lemma map_get_delete_ne (es : list (val * val)) (k k0 : val) :
  k <> k0 -> map_get (map_delete es k) k0 = map_get es k0.
Proof.
  intros Hne. induction es as [|[k' v'] es IH]; [done|]. simpl.
  destruct (bool_decide (k' = k)) eqn:E; simpl.
  - apply bool_decide_eq_true_1 in E; subst k'.
    by rewrite bool_decide_eq_false_2.
  - by rewrite IH.
Qed.

Lemma delete_undefined_get (n : nat) (es : list (val * val)) (k : val) :
  k <> VUndefined -> map_get (delete_undefined n es) k = map_get es k.
Proof.
  intros Hne. induction n as [|n IH]; [done|]. simpl.
  rewrite map_get_delete_ne; [done|congruence].
Qed.

(** A key that is not in the collection: [find] rejects with the
    [DoesNotExist] error of this key, and nothing changes. *)
Theorem find_missing_key (s : Store Ctor) (h : heap) (k : val) (l : loc)
    (es : list (val * val)) :
  as_map h (idMap s) = Normal (l, es) ->
  map_has es k = false ->
  find s h k = (s, h, Normal (Rejected (DoesNotExist k))).
Proof.
  intros Hm Hk. unfold find. rewrite Hm, (map_get_absent _ _ Hk). done.
Qed.

(** A new store: its collection is a new, empty [Map], the sorted flag is
    set, every [find] rejects with [DoesNotExist] and [all] resolves with
    an empty array; the objects that existed are as they were. *)
Theorem new_Store_empty (h : heap) (T : Ctor)
    (key : heap -> val -> completion val)
    (cmp : heap -> val -> val -> completion Z) (k : val) :
  let s := (new_Store h T key cmp).1 in
  let h1 := (new_Store h T key cmp).2 in
  sorted s = true /\
  h ⊆ h1 /\
  (exists l, idMap s = VRef l /\ h !! l = None /\ h1 !! l = Some (HMap [])) /\
  find s h1 k = (s, h1, Normal (Rejected (DoesNotExist k))) /\
  exists a h2,
    all s h1 = (s, h2, Normal (Resolved (VRef a))) /\
    h2 !! a = Some (HArray []).
Proof.
  simpl. split; [done|].
  split; [apply fresh_insert_subseteq|].
  split.
  { eexists. split; [reflexivity|]. split; [apply fresh_lookup|].
    apply lookup_insert_eq. }
  split.
  { unfold find. simpl. by rewrite lookup_insert_eq. }
  unfold all. simpl. rewrite lookup_insert_eq. simpl.
  eexists _, _. split; [reflexivity|]. apply lookup_insert_eq.
Qed.

(** [update] is an upsert: a key that is present keeps its place among the
    keys and the sorted flag stays as it is; a new key goes to the end and
    the sorted flag is cleared.  Either way the key then maps to the
    document. *)
Theorem update_upsert (s : Store Ctor) (h : heap) (d u : val) (l : loc)
    (es : list (val * val)) :
  as_map h (idMap s) = Normal (l, es) ->
  get_field h d "uid" = Normal u ->
  exists s1 h1 es1,
    update s h d = (s1, h1, Normal (Resolved (VBool true))) /\
    as_map h1 (idMap s1) = Normal (l, es1) /\
    map_get es1 u = d /\
    map fst es1 =
      (if map_has es u then map fst es else (map fst es ++ [u])%list) /\
    sorted s1 = (if map_has es u then sorted s else false).
Proof.
  intros Hm Hu. unfold update. rewrite Hm, Hu.
  apply as_map_inv in Hm as [Hid Hl].
  eexists _, _, (map_set es u d). split; [reflexivity|].
  split.
  { apply as_map_inv. split; [by destruct (negb _)|apply lookup_insert_eq]. }
  split; [apply map_get_set|].
  split; [apply map_set_keys|].
  by destruct (map_has es u).
Qed.

(** A document given to [update] is among the items that [all] resolves
    with afterwards, and their number grew by one exactly when the key was
    new. *)
Theorem update_then_all (s : Store Ctor) (h : heap) (d u : val) (l : loc)
    (es : list (val * val)) :
  as_map h (idMap s) = Normal (l, es) ->
  get_field h d "uid" = Normal u ->
  exists s1 h1 a h2 elems,
    update s h d = (s1, h1, Normal (Resolved (VBool true))) /\
    all s1 h1 = (s1, h2, Normal (Resolved (VRef a))) /\
    h2 !! a = Some (HArray elems) /\
    In d elems /\
    length elems = (if map_has es u then length es else S (length es)).
Proof.
  intros Hm Hu. unfold update. rewrite Hm, Hu.
  apply as_map_inv in Hm as [Hid Hl].
  set (s1 := if negb (map_has es u) then set_sorted s false else s).
  set (h1 := <[l := HMap (map_set es u d)]> h).
  assert (Hm1 : as_map h1 (idMap s1) = Normal (l, map_set es u d)).
  { apply as_map_inv. split; [by unfold s1; destruct (negb _)|].
    apply lookup_insert_eq. }
  eexists s1, h1, _, _, _. split; [reflexivity|].
  split; [apply (all_spec _ _ _ _ _ Hm1)|].
  split; [apply lookup_insert_eq|].
  destruct (map_set_values es u d) as [Hin Hlen].
  split; [done|]. unfold map_values. by rewrite length_map.
Qed.

(** [findAll] is the filter of [all]: [all] resolves with the documents in
    the order of the collection, [findAll] with those of them for which the
    index holds, in the same order, in an array of its own. *)
Theorem findAll_filters_all (s : Store Ctor) (h : heap) (l : loc)
    (es : list (val * val)) (index : heap -> val -> val -> bool)
    (value : val) :
  as_map h (idMap s) = Normal (l, es) ->
  exists a1 h1 a2 h2,
    all s h = (s, h1, Normal (Resolved (VRef a1))) /\
    h1 !! a1 = Some (HArray (map_values es)) /\
    findAll s h index value = (s, h2, Normal (Resolved (VRef a2))) /\
    h2 !! a2 = Some (HArray (List.filter (index h1 value) (map_values es))) /\
    a2 <> a1 /\ a2 <> l.
Proof.
  intros Hm.
  eexists _, _, _, _. split; [apply (all_spec _ _ _ _ _ Hm)|].
  split; [apply lookup_insert_eq|].
  split; [apply (findAll_spec _ _ _ _ _ index value Hm)|].
  split; [apply lookup_insert_eq|].
  apply as_map_inv in Hm as [_ Hl].
  set (h1 := <[fresh (dom h) := HArray (map_values es)]> h).
  pose proof (fresh_lookup h1) as Hf.
  split.
  - intros E. rewrite E in Hf. unfold h1 in Hf.
    by rewrite lookup_insert_eq in Hf.
  - intros E. rewrite E in Hf.
    pose proof (lookup_weaken _ _ _ _ Hl
                  (fresh_insert_subseteq h (HArray (map_values es)))) as Hl1.
    fold h1 in Hl1. congruence.
Qed.

(** [update(undefined)] and [update(null)] throw a [TypeError] on the spot,
    before any promise exists, and leave the store as it was. *)
Theorem update_undefined_throws (s : Store Ctor) (h : heap) :
  update s h VUndefined = (s, h, Throw TypeError) /\
  update s h VNull = (s, h, Throw TypeError).
Proof.
  unfold update.
  destruct (as_map h (idMap s)) as [[m es]|e] eqn:Hm; [done|].
  by rewrite (as_map_throws _ _ _ Hm).
Qed.

(** As the guard of [remove] is written, [remove] deletes nothing: for
    every key, stored or not, it resolves with [false] and the store and
    the heap are as they were. *)
Theorem remove_is_noop (s : Store Ctor) (h : heap) (k : val) (l : loc)
    (es : list (val * val)) :
  as_map h (idMap s) = Normal (l, es) ->
  remove s h k = (s, h, Normal (Resolved (VBool false))).
Proof.
  intros Hm. rewrite remove_never_deletes. by rewrite Hm.
Qed.

Lemma existsb_filter (f : val -> bool) (vs : list val) :
  existsb f vs = negb (bool_decide (List.filter f vs = [])).
Proof.
  induction vs as [|v vs IH]; [done|].
  simpl. destruct (f v); simpl; [done|exact IH].
Qed.

(** [removeAll] resolves with [true] exactly when a stored document
    satisfies the index; as its loop is written, it then deletes the entry
    of the key [undefined] only: the document of every other key stays.
    When no document satisfies the index the collection is as it was. *)
Theorem removeAll_outcome (s : Store Ctor) (h : heap) (l : loc)
    (es : list (val * val)) (index : heap -> val -> val -> bool)
    (value : val) :
  as_map h (idMap s) = Normal (l, es) ->
  let h1 := <[fresh (dom h) := HArray (map_values es)]> h in
  exists h2 es2,
    removeAll s h index value =
      (s, h2,
       Normal (Resolved (VBool (existsb (index h1 value) (map_values es))))) /\
    as_map h2 (idMap s) = Normal (l, es2) /\
    (forall k, k <> VUndefined -> map_get es2 k = map_get es k) /\
    (existsb (index h1 value) (map_values es) = false -> es2 = es).
Proof.
  intros Hm h1. rewrite (removeAll_spec _ _ _ _ _ index value Hm). fold h1.
  set (matched := List.filter (index h1 value) (map_values es)).
  assert (Hex : existsb (index h1 value) (map_values es) =
                negb (bool_decide (matched = []))).
  { apply existsb_filter. }
  apply as_map_inv in Hm as [Hid Hl].
  assert (Hl2 : <[fresh (dom h1) := HArray matched]> h1 !! l = Some (HMap es)).
  { eapply lookup_weaken; [exact Hl|].
    etrans; [apply (fresh_insert_subseteq h)|].
    apply (fresh_insert_subseteq h1). }
  rewrite Hex. destruct matched as [|x matched'] eqn:E.
  - exists (<[fresh (dom h1) := HArray []]> h1), es.
    split; [done|]. split; [by apply as_map_inv|]. done.
  - eexists _, _. split; [reflexivity|].
    split; [apply as_map_inv; split; [done|apply lookup_insert_eq]|].
    split; [|done].
    intros k Hk. by apply delete_undefined_get.
Qed.

(** The default comparator gives -1, 0 or 1, and when [<] is asymmetric,
    as it is on numbers and on strings, exchanging the arguments changes
    the sign. *)
Theorem defaultComparator_antisymmetric
    (key : heap -> val -> completion val) (h : heap) (a b : val) (n : Z) :
  (forall x y, js_lt x y = true -> js_lt y x = false) ->
  defaultComparator js_lt key h a b = Normal n ->
  (n = -1 \/ n = 0 \/ n = 1)%Z /\
  defaultComparator js_lt key h b a = Normal (- n)%Z.
Proof.
  intros Hasym. unfold defaultComparator.
  destruct (key h a) as [ka|e]; [|discriminate].
  destruct (key h b) as [kb|e]; [|discriminate]. simpl.
  destruct (js_lt ka kb) eqn:Hab.
  - intros [= <-]. rewrite (Hasym _ _ Hab). simpl. auto.
  - destruct (js_lt kb ka) eqn:Hba; intros [= <-]; simpl; auto.
Qed.

(** What the operations other than [bulk] change: the collection object
    and, for [update], the sorted flag.  Every other object that existed
    (a document, an array that [all] resolved with earlier) is as it was,
    and so are the fields of the store. *)
Theorem only_collection_changes (s s1 : Store Ctor) (h h1 : heap)
    (c : call Operation) (r : completion promise) :
  (forall p, c <> Bulk p) ->
  run_call patch_patch s h c = (s1, h1, r) ->
  idMap s1 = idMap s /\ key s1 = key s /\ comparator s1 = comparator s /\
  type s1 = type s /\
  ((forall d, c <> Update d) -> sorted s1 = sorted s) /\
  forall l o, idMap s <> VRef l -> h !! l = Some o -> h1 !! l = Some o.
Proof.
  intros Hc Hrun.
  assert (Hfresh : forall (h0 : heap) o0 l o,
             h0 !! l = Some o -> <[fresh (dom h0) := o0]> h0 !! l = Some o).
  { intros h0 o0 l o Hl. eapply lookup_weaken; [exact Hl|].
    apply fresh_insert_subseteq. }
  destruct c as [k| |index value|d|k|index value|p]; simpl in Hrun.
  - destruct (find_unchanged _ s h k) as [r' Hfind].
    rewrite Hfind in Hrun. injection Hrun as <- <- _. by repeat split.
  - unfold all in Hrun.
    destruct (as_map h (idMap s)) as [[m es]|e];
      injection Hrun as <- <- _; repeat split; auto.
  - destruct (as_map h (idMap s)) as [[m es]|e] eqn:Hm.
    + rewrite (findAll_spec _ _ _ _ _ index value Hm) in Hrun.
      injection Hrun as <- <- _. repeat split; auto.
    + unfold findAll, all in Hrun. rewrite Hm in Hrun.
      injection Hrun as <- <- _. by repeat split.
  - unfold update in Hrun.
    destruct (as_map h (idMap s)) as [[m es]|e] eqn:Hm;
      [|injection Hrun as <- <- _; by repeat split].
    destruct (get_field h d "uid") as [u|e];
      [|injection Hrun as <- <- _; by repeat split].
    injection Hrun as <- <- _.
    apply as_map_inv in Hm as [Hid Hl].
    repeat split; try (by destruct (negb _)).
    + intros Hd. by destruct (Hd d).
    + intros l o Hne Hlo. rewrite lookup_insert_ne; [done|]. congruence.
  - rewrite remove_never_deletes in Hrun.
    injection Hrun as <- <- _. by repeat split.
  - destruct (as_map h (idMap s)) as [[m es]|e] eqn:Hm.
    + rewrite (removeAll_spec _ _ _ _ _ index value Hm) in Hrun.
      injection Hrun as <- <- _.
      apply as_map_inv in Hm as [Hid Hl].
      repeat split; auto.
      intros l o Hne Hlo.
      destruct (List.filter _ _); [by auto|].
      rewrite lookup_insert_ne; [by auto|]. congruence.
    + unfold removeAll, findAll, all in Hrun. rewrite Hm in Hrun.
      injection Hrun as <- <- _. by repeat split.
  - by destruct (Hc p).
Qed.


End Coverage.


Lemma update_find_uid_witness :
  exists s1 h1,
    update test_store.1 test_store.2 (VRef 2%positive) =
      (s1, h1, Normal (Resolved (VBool true))) /\
    find s1 h1 (VNum 2) = (s1, h1, Normal (Resolved (VRef 2%positive))).
Proof.
  eapply (update_find_uid string test_store.1 test_store.2
            (VRef 2%positive) (VNum 2)); reflexivity.
Defined.

Lemma update_find_other_witness :
  exists s1 h1,
    update test_store.1 test_store.2 (VRef 2%positive) =
      (s1, h1, Normal (Resolved (VBool true))) /\
    (find s1 h1 (VNum 3)).2 = (find test_store.1 test_store.2 (VNum 3)).2.
Proof.
  eapply (update_find_other string test_store.1 test_store.2
            (VRef 2%positive) (VNum 2) (VNum 3));
    [reflexivity|reflexivity|discriminate].
Defined.

Lemma find_missing_key_witness :
  find test_store.1 test_store.2 (VNum 69) =
  (test_store.1, test_store.2, Normal (Rejected (DoesNotExist (VNum 69)))).
Proof.
  eapply (find_missing_key string test_store.1 test_store.2 (VNum 69));
    reflexivity.
Defined.

Lemma update_upsert_witness :
  exists s1 h1 es1,
    update test_store.1 test_store.2 (VRef 2%positive) =
      (s1, h1, Normal (Resolved (VBool true))) /\
    as_map h1 (idMap s1) = Normal (4%positive, es1) /\
    map_get es1 (VNum 2) = VRef 2%positive /\
    map fst es1 = [VNum 1; VNum 2; VNum 3] /\
    sorted s1 = sorted test_store.1.
Proof.
  apply (update_upsert string test_store.1 test_store.2 (VRef 2%positive)
           (VNum 2) 4%positive
           [(VNum 1, VRef 1%positive); (VNum 2, VRef 2%positive);
            (VNum 3, VRef 3%positive)]); reflexivity.
Defined.

Lemma update_then_all_witness :
  exists s1 h1 a h2 elems,
    update test_store.1 test_store.2 (VRef 2%positive) =
      (s1, h1, Normal (Resolved (VBool true))) /\
    all s1 h1 = (s1, h2, Normal (Resolved (VRef a))) /\
    h2 !! a = Some (HArray elems) /\
    In (VRef 2%positive) elems /\
    length elems = 3%nat.
Proof.
  apply (update_then_all string test_store.1 test_store.2 (VRef 2%positive)
           (VNum 2) 4%positive
           [(VNum 1, VRef 1%positive); (VNum 2, VRef 2%positive);
            (VNum 3, VRef 3%positive)]); reflexivity.
Defined.

Lemma findAll_filters_all_witness :
  exists a1 h1 a2 h2,
    all test_store.1 test_store.2 =
      (test_store.1, h1, Normal (Resolved (VRef a1))) /\
    h1 !! a1 =
      Some (HArray [VRef 1%positive; VRef 2%positive; VRef 3%positive]) /\
    findAll test_store.1 test_store.2 byA (VStr "hello") =
      (test_store.1, h2, Normal (Resolved (VRef a2))) /\
    h2 !! a2 =
      Some (HArray
              (List.filter (byA h1 (VStr "hello"))
                 [VRef 1%positive; VRef 2%positive; VRef 3%positive])) /\
    a2 <> a1 /\ a2 <> 4%positive.
Proof.
  apply (findAll_filters_all string test_store.1 test_store.2 4%positive
           [(VNum 1, VRef 1%positive); (VNum 2, VRef 2%positive);
            (VNum 3, VRef 3%positive)] byA (VStr "hello")).
  reflexivity.
Defined.

Lemma remove_is_noop_witness :
  remove test_store.1 test_store.2 (VNum 1) =
  (test_store.1, test_store.2, Normal (Resolved (VBool false))).
Proof.
  eapply (remove_is_noop string test_store.1 test_store.2 (VNum 1)).
  reflexivity.
Defined.

Lemma removeAll_outcome_witness :
  exists h2 es2,
    removeAll test_store.1 test_store.2 byA (VStr "goodbye") =
      (test_store.1, h2, Normal (Resolved (VBool true))) /\
    as_map h2 (idMap test_store.1) = Normal (4%positive, es2) /\
    (forall k, k <> VUndefined ->
               map_get es2 k =
               map_get [(VNum 1, VRef 1%positive); (VNum 2, VRef 2%positive);
                        (VNum 3, VRef 3%positive)] k) /\
    (true = false ->
     es2 = [(VNum 1, VRef 1%positive); (VNum 2, VRef 2%positive);
            (VNum 3, VRef 3%positive)]).
Proof.
  apply (removeAll_outcome string test_store.1 test_store.2 4%positive
           [(VNum 1, VRef 1%positive); (VNum 2, VRef 2%positive);
            (VNum 3, VRef 3%positive)] byA (VStr "goodbye")).
  reflexivity.
Defined.

Lemma lt_number_asymmetric (x y : val) :
  lt_number x y = true -> lt_number y x = false.
Proof.
  destruct x, y; simpl; try done. intros H%Z.ltb_lt. apply Z.ltb_ge. lia.
Qed.

Lemma defaultComparator_antisymmetric_witness :
  defaultComparator lt_number default_key test_heap
    (VRef 2%positive) (VRef 1%positive) = Normal 1%Z /\
  (1 = -1 \/ 1 = 0 \/ 1 = 1)%Z /\
  defaultComparator lt_number default_key test_heap
    (VRef 1%positive) (VRef 2%positive) = Normal (- 1)%Z.
Proof.
  split; [reflexivity|].
  apply (defaultComparator_antisymmetric lt_number default_key test_heap
           (VRef 2%positive) (VRef 1%positive) 1%Z lt_number_asymmetric).
  reflexivity.
Defined.

Lemma only_collection_changes_witness :
  let r := run_call same_engine test_store.1 test_store.2
             (Update (VRef 2%positive)) in
  idMap r.1.1 = idMap test_store.1 /\
  key r.1.1 = key test_store.1 /\
  comparator r.1.1 = comparator test_store.1 /\
  type r.1.1 = type test_store.1 /\
  ((forall d, @Update operation (VRef 2%positive) <> Update d) ->
   sorted r.1.1 = sorted test_store.1) /\
  forall l o,
    idMap test_store.1 <> VRef l ->
    test_store.2 !! l = Some o -> r.1.2 !! l = Some o.
Proof.
  apply (only_collection_changes string operation same_engine
           test_store.1 _ test_store.2 _ (Update (VRef 2%positive))
           (run_call same_engine test_store.1 test_store.2
              (Update (VRef 2%positive))).2).
  - discriminate.
  - reflexivity.
Defined.


End MapStoreFacts.

(** ** The REST store *)

Module RestStoreFacts.

Import RestStore.

Local Open Scope string_scope.

(** *** Facts about [Object.assign] *)

Lemma prop_get_set_eq {A : Type} (o : list (string * A)) (name : string)
    (v : A) :
  prop_get (prop_set o name v) name = Some v.
Proof.
  induction o as [|[n v'] o IH]; simpl.
  - by rewrite String.eqb_refl.
  - destruct (String.eqb n name) eqn:E; simpl; by rewrite E.
Qed.

Lemma prop_get_set_ne {A : Type} (o : list (string * A)) (name name' : string)
    (v : A) :
  name <> name' ->
  prop_get (prop_set o name v) name' = prop_get o name'.
Proof.
  intros Hne. induction o as [|[n v'] o IH]; simpl.
  - destruct (String.eqb name name') eqn:E; [|done].
    by apply String.eqb_eq in E.
  - destruct (String.eqb n name) eqn:E; simpl.
    + apply String.eqb_eq in E; subst n.
      destruct (String.eqb name name') eqn:E'; [|done].
      by apply String.eqb_eq in E'.
    + by rewrite IH.
Qed.

(** The merge: a name of [source] gets its (last) value there, any other
    name keeps the value it has in [target]. *)
Lemma Object_assign_get {A : Type} (target source : list (string * A))
    (name : string) :
  prop_get (Object_assign target source) name =
  match prop_get (rev source) name with
  | Some v => Some v
  | None => prop_get target name
  end.
Proof.
  unfold Object_assign.
  induction source as [|[n v] src IH] using rev_ind; [done|].
  rewrite fold_left_app, rev_unit. simpl.
  destruct (String.eqb n name) eqn:E.
  - apply String.eqb_eq in E; subst n. apply prop_get_set_eq.
  - rewrite prop_get_set_ne; [done|].
    intros ->. by rewrite String.eqb_refl in E.
Qed.

Section Facts.

Variable host : Host.
Variable ServerState : Type.
Variable fetch : ServerState -> Request -> ServerState * settled error Response.

(** *** The requests of a store *)

Lemma then_checkStatus_sent (w : world ServerState)
    (p : settled error Response) :
  sent (then_checkStatus w p).1 = sent w /\
  clients (then_checkStatus w p).1 = clients w.
Proof.
  unfold then_checkStatus, checkStatus. destruct p as [response|e]; [|done].
  destruct (status response =? 204)%Z; [done|].
  destruct (status response =? 200)%Z.
  - destruct (json response) as [[v|e]|e]; done.
  - done.
Qed.

Lemma then_resultmap_sent (w : world ServerState) (p : settled thrown val)
    (resultmap :
       world ServerState -> val -> world ServerState * completion val) :
  (forall w0 v, sent (resultmap w0 v).1 = sent w0) ->
  sent (then_resultmap w p resultmap).1 = sent w.
Proof.
  intros Hmap. unfold then_resultmap. destruct p as [body|e]; [|done].
  specialize (Hmap w body). by destruct (resultmap w body) as [w1 [v|e]].
Qed.

Lemma findAll_resultmap_sent (s : Store) (w : world ServerState) (v : val) :
  sent (findAll_resultmap s w v).1 = sent w.
Proof.
  unfold findAll_resultmap. destruct v as [| | | | |a]; try done.
  destruct (objects w !! a) as [[| items |]|]; try done.
  by destruct (map_fromJSON (type s) items).
Qed.

Lemma do_fetch_sent (w : world ServerState) (request : Request) :
  sent (do_fetch fetch w request).1 = (sent w ++ [request])%list /\
  clients (do_fetch fetch w request).1 = clients w.
Proof. unfold do_fetch. by destruct (fetch (server w) request). Qed.

Lemma _doGet_sent (s : Store) (w : world ServerState) (cl : Client)
    (url : string)
    (resultmap :
       world ServerState -> val -> world ServerState * completion val) :
  clients w !! client s = Some cl ->
  (forall w0 v, sent (resultmap w0 v).1 = sent w0) ->
  sent (_doGet fetch s w url resultmap).1 =
  (sent w ++ [getGetRequest cl url])%list.
Proof.
  intros Hcl Hmap. unfold _doGet, the_client. rewrite Hcl.
  pose proof (do_fetch_sent w (getGetRequest cl url)) as [Hf _].
  destruct (do_fetch fetch w (getGetRequest cl url)) as [w1 p1].
  pose proof (then_checkStatus_sent w1 p1) as [Hc _].
  destruct (then_checkStatus w1 p1) as [w2 p2].
  pose proof (then_resultmap_sent w2 p2 resultmap Hmap) as Hr.
  destruct (then_resultmap w2 p2 resultmap) as [w3 p3].
  simpl in *. congruence.
Qed.

Lemma _doPost_sent (s : Store) (w : world ServerState) (cl : Client)
    (url : string) (object : val) :
  clients w !! client s = Some cl ->
  sent (_doPost host fetch s w url object).1 =
  (sent w ++ [getPostRequest host (objects w) cl url object])%list.
Proof.
  intros Hcl. unfold _doPost, the_client. rewrite Hcl.
  pose proof (do_fetch_sent w (getPostRequest host (objects w) cl url object))
    as [Hf _].
  destruct (do_fetch fetch w _) as [w1 p1].
  pose proof (then_checkStatus_sent w1 p1) as [Hc _].
  destruct (then_checkStatus w1 p1) as [w2 p2].
  simpl in *. congruence.
Qed.

Lemma _doPut_sent (s : Store) (w : world ServerState) (cl : Client)
    (url : string) (object : val) :
  clients w !! client s = Some cl ->
  sent (_doPut host fetch s w url object).1 =
  (sent w ++ [getPutRequest host (objects w) cl url object])%list.
Proof.
  intros Hcl. unfold _doPut, the_client. rewrite Hcl.
  pose proof (do_fetch_sent w (getPutRequest host (objects w) cl url object))
    as [Hf _].
  destruct (do_fetch fetch w _) as [w1 p1].
  pose proof (then_checkStatus_sent w1 p1) as [Hc _].
  destruct (then_checkStatus w1 p1) as [w2 p2].
  simpl in *. congruence.
Qed.

Lemma _doDelete_sent (s : Store) (w : world ServerState) (cl : Client)
    (url : string) :
  clients w !! client s = Some cl ->
  sent (_doDelete host fetch s w url).1 =
  (sent w ++
   (if debug_log_defined host then [getDeleteRequest cl url] else []))%list.
Proof.
  intros Hcl. unfold _doDelete, the_client. rewrite Hcl.
  destruct (debug_log_defined host); simpl; [|by rewrite app_nil_r].
  pose proof (do_fetch_sent w (getDeleteRequest cl url)) as [Hf _].
  destruct (do_fetch fetch w _) as [w1 p1].
  pose proof (then_checkStatus_sent w1 p1) as [Hc _].
  destruct (then_checkStatus w1 p1) as [w2 p2].
  simpl in *. congruence.
Qed.

(** Reading an encoder off the index map changes nothing but, at most,
    the index map. *)
Lemma call_encoder_same (w : world ServerState) (m : loc) (name : string)
    (value : val) :
  same_but_index_maps w (call_encoder host w m name value).1.
Proof.
  unfold call_encoder, same_but_index_maps.
  destruct (index_maps w !! m) as [im|]; [|done].
  destruct (prop_get im name); [done|].
  destruct (lookup_inherited host im name) as [[|member]|]; try done.
  destruct (get_field (objects w) value "name") as [n|e]; [|done].
  by destruct (addSimpleField host im _ _).
Qed.

Lemma call_encoder_registered (w : world ServerState) (m : loc)
    (im : IndexMap) (name : string) (encode : val -> string) (value : val) :
  index_maps w !! m = Some im ->
  prop_get im name = Some encode ->
  call_encoder host w m name value = (w, Normal (encode value)).
Proof.
  intros Him Hget. unfold call_encoder, IndexMap in *. by rewrite Him, Hget.
Qed.

Lemma call_encoder_missing (w : world ServerState) (m : loc)
    (im : IndexMap) (name : string) (value : val) :
  index_maps w !! m = Some im ->
  prop_get im name = None ->
  lookup_inherited host im name = None ->
  call_encoder host w m name value = (w, Throw TypeError).
Proof.
  intros Him Hget Hin. unfold call_encoder, IndexMap in *.
  by rewrite Him, Hget, Hin.
Qed.

Lemma _multipleResourceURI_same (s : Store) (w : world ServerState)
    (op : string) (index : Index) (value : val) :
  same_but_index_maps w (_multipleResourceURI host s w op index value).1.
Proof.
  unfold _multipleResourceURI.
  pose proof (call_encoder_same w (index_map s) (index_name index) value)
    as Hsame.
  by destruct (call_encoder host w (index_map s) (index_name index) value)
    as [w1 [query|e]].
Qed.

(** Every request an operation builds takes the headers that the client
    has at this moment. *)
Lemma run_call_sent (s : Store) (w : world ServerState) (cl : Client)
    (c : call) :
  clients w !! client s = Some cl ->
  exists reqs,
    sent (run_call host fetch s w c).1 = (sent w ++ reqs)%list /\
    Forall (fun r => req_headers r = headers cl) reqs /\
    (forall key, c = Find key -> length reqs = 1%nat).
Proof.
  intros Hcl.
  destruct c as [key|index value|object|key|index value|patch]; simpl.
  - exists [getGetRequest cl (_singleResourceURI host s key)].
    split; [|split; [by repeat constructor|done]].
    unfold find. by apply _doGet_sent.
  - unfold findAll.
    pose proof (_multipleResourceURI_same s w "findAll" index value)
      as (_ & Hc & _ & Hs & _).
    destruct (_multipleResourceURI host s w "findAll" index value)
      as [w1 [url|e]]; simpl in Hc, Hs.
    + exists [getGetRequest cl url].
      split; [|split; [by repeat constructor|done]].
      rewrite <- Hs. apply _doGet_sent; [by rewrite Hc|].
      apply findAll_resultmap_sent.
    + exists []. simpl. by rewrite app_nil_r.
  - unfold update.
    destruct (get_field (objects w) object "uid") as [uid|e].
    + eexists [_]. split; [by apply _doPut_sent|].
      split; [by repeat constructor|done].
    + exists []. simpl. by rewrite app_nil_r.
  - unfold remove. eexists. split; [by apply _doDelete_sent|].
    split; [|done]. destruct (debug_log_defined host); by repeat constructor.
  - unfold removeAll.
    pose proof (_multipleResourceURI_same s w "removeAll" index value)
      as (_ & Hc & _ & Hs & _).
    destruct (_multipleResourceURI host s w "removeAll" index value)
      as [w1 [url|e]]; simpl in Hc, Hs.
    + eexists. split; [rewrite <- Hs; apply _doDelete_sent; by rewrite Hc|].
      split; [|done]. destruct (debug_log_defined host); by repeat constructor.
    + exists []. simpl. by rewrite app_nil_r.
  - unfold bulk. eexists [_]. split; [by apply _doPost_sent|].
    split; [by repeat constructor|done].
Qed.

(** C9. After [updateHeaders(hs)] on a client, every request that a store
    holding this client builds, whenever the store itself was built, has
    the client's previous headers merged with [hs]: the headers are read
    from the client when the request is built.  [find] builds exactly one
    request. *)
Theorem headers_read_at_request_time (w : world ServerState) (c : loc)
    (cl : Client) (hs : list (string * string)) (s : Store) (op : call) :
  clients w !! c = Some cl ->
  client s = c ->
  exists reqs,
    sent (run_call host fetch s (updateHeaders c hs w) op).1 =
      (sent w ++ reqs)%list /\
    Forall (fun r => req_headers r = Object_assign (headers cl) hs) reqs /\
    (forall key, op = Find key -> length reqs = 1%nat).
Proof.
  intros Hcl Hs.
  set (cl1 := {| base_url := base_url cl; options := options cl;
                 headers := Object_assign (headers cl) hs |}).
  assert (Hw1 : clients (updateHeaders c hs w) !! client s = Some cl1).
  { unfold updateHeaders. rewrite Hcl, Hs. simpl. apply lookup_insert_eq. }
  assert (Hsent : sent (updateHeaders c hs w) = sent w).
  { unfold updateHeaders. by rewrite Hcl. }
  destruct (run_call_sent s _ cl1 op Hw1) as (reqs & Hreqs & Hall & Hone).
  exists reqs. by rewrite Hreqs, Hsent.
Qed.

(** *** Responses *)

(** C6, as the code has it.  When the server answers [find(key)] with
    status 404, the promise rejects with a [DoesNotExist] error, not a
    generic one; its [key] field is the status text of the response, not
    the key; the response that [fetch] resolved with is attached to it,
    and the status text is logged.  The key shows in the error through
    that response only: its URL is the item URL of the key when [fetch]
    reports the URL of the request there. *)
Theorem find_404 (s : Store) (w : world ServerState) (key : val) (cl : Client)
    (sv : ServerState) (response : Response) :
  clients w !! client s = Some cl ->
  fetch (server w) (getGetRequest cl (_singleResourceURI host s key)) =
    (sv, Fulfilled response) ->
  status response = 404 ->
  find host fetch s w key =
  ({| objects := objects w; clients := clients w;
      index_maps := index_maps w;
      console := console w ++ [["checkStatus"; statusText response]];
      sent := sent w ++ [getGetRequest cl (_singleResourceURI host s key)];
      server := sv |},
   Normal (Rejected {| err := DoesNotExist (VStr (statusText response));
                       err_response := Some response |})) /\
  (response_url response =
     req_url (getGetRequest cl (_singleResourceURI host s key)) ->
   response_url response =
     base_url cl +:+ endpoint s +:+ "/items/" +:+
     encodeURIComponent host (to_string host key)).
Proof.
  intros Hcl Hfetch Hstatus. split; [|by intros ->].
  unfold find, _doGet, the_client, do_fetch. rewrite Hcl, Hfetch. simpl.
  unfold checkStatus. rewrite Hstatus. reflexivity.
Qed.

(** Any other status than 200, 204 and 404 gives a generic error. *)
Lemma find_other_status (s : Store) (w : world ServerState) (key : val)
    (cl : Client)
    (sv : ServerState) (response : Response) :
  clients w !! client s = Some cl ->
  fetch (server w) (getGetRequest cl (_singleResourceURI host s key)) =
    (sv, Fulfilled response) ->
  status response <> 204 -> status response <> 200 ->
  status response <> 404 ->
  (find host fetch s w key).2 =
  Normal (Rejected {| err := JsError (statusText response);
                      err_response := Some response |}).
Proof.
  intros Hcl Hfetch H204 H200 H404.
  unfold find, _doGet, the_client, do_fetch. rewrite Hcl, Hfetch. simpl.
  unfold checkStatus.
  apply Z.eqb_neq in H204, H200, H404. by rewrite H204, H200, H404.
Qed.

(** Status 200 with a body that is not JSON: [response.json()] returns a
    promise that rejects with the parser's error [e]; [checkStatus]
    returns that promise, its [catch] block is not entered, nothing is
    logged, and [find] rejects with [e]. *)
Lemma find_200_unparsable (s : Store) (w : world ServerState) (key : val)
    (cl : Client)
    (sv : ServerState) (response : Response) (e : error) :
  clients w !! client s = Some cl ->
  fetch (server w) (getGetRequest cl (_singleResourceURI host s key)) =
    (sv, Fulfilled response) ->
  status response = 200 ->
  json response = JsonReturns (Rejected e) ->
  console (find host fetch s w key).1 = console w /\
  (find host fetch s w key).2 = Normal (Rejected (plain e)).
Proof.
  intros Hcl Hfetch Hstatus Hjson.
  unfold find, _doGet, the_client, do_fetch. rewrite Hcl, Hfetch. simpl.
  unfold checkStatus. by rewrite Hstatus, Hjson.
Qed.

(** The [catch] block of [checkStatus] is for a [response.json()] that
    throws. *)
Lemma find_200_json_throws (s : Store) (w : world ServerState) (key : val)
    (cl : Client)
    (sv : ServerState) (response : Response) (e : error) :
  clients w !! client s = Some cl ->
  fetch (server w) (getGetRequest cl (_singleResourceURI host s key)) =
    (sv, Fulfilled response) ->
  status response = 200 ->
  json response = JsonThrows e ->
  console (find host fetch s w key).1 =
    (console w ++ [["ServiceClient.checkStatus - couldn't parse";
                    "[object Promise]"]])%list /\
  (find host fetch s w key).2 =
    Normal (Rejected (plain (JsError "unknown response from server"))).
Proof.
  intros Hcl Hfetch Hstatus Hjson.
  unfold find, _doGet, the_client, do_fetch. rewrite Hcl, Hfetch. simpl.
  unfold checkStatus. by rewrite Hstatus, Hjson.
Qed.

End Facts.

(** C6 as stated fails.  The server answers [find(69)] with 404: the
    promise rejects with a [DoesNotExist] error whose [key] is the status
    text, not 69, whatever is attached to it; the key is found in the URL
    of the attached response only.  That URL is the one [fetch] ended at:
    where the server redirects to a page that it answers with 404,
    [find(69)] and [find(70)], asked at different URLs, reject with the
    same error. *)
Lemma find_404_error_without_key :
  (test_find empty_server (VNum 69)).2 =
    Normal (Rejected
              {| err := DoesNotExist (VStr "Not Found");
                 err_response :=
                   Some (not_found "http://127.0.0.1:8666/items/69") |}) /\
  (forall r,
      (test_find empty_server (VNum 69)).2 <>
      Normal (Rejected {| err := DoesNotExist (VNum 69);
                          err_response := r |})) /\
  map req_url (sent (test_find redirecting_server (VNum 69)).1) =
    ["http://127.0.0.1:8666/items/69"] /\
  map req_url (sent (test_find redirecting_server (VNum 70)).1) =
    ["http://127.0.0.1:8666/items/70"] /\
  (test_find redirecting_server (VNum 70)).2 =
    (test_find redirecting_server (VNum 69)).2.
Proof.
  split; [reflexivity|]. split; [intros r; vm_compute; congruence|].
  split; [reflexivity|]. split; reflexivity.
Qed.

Lemma find_404_witness :
  (test_find empty_server (VNum 69)).2 =
    Normal (Rejected
              {| err := DoesNotExist (VStr "Not Found");
                 err_response :=
                   Some (not_found "http://127.0.0.1:8666/items/69") |}) /\
  response_url (not_found "http://127.0.0.1:8666/items/69") =
    "http://127.0.0.1:8666" +:+ "" +:+ "/items/" +:+ "69".
Proof.
  destruct (find_404 test_host unit empty_server test_store test_world.2
              (VNum 69) test_client tt
              (not_found "http://127.0.0.1:8666/items/69")
              eq_refl eq_refl eq_refl) as [Hfind Hurl].
  split; [unfold test_find; rewrite Hfind; reflexivity|exact (Hurl eq_refl)].
Defined.

(** C7.  The server answers 200 with a body that is not JSON: the promise
    rejects with the parser's error, nothing is logged, and the error is
    not the [Error('unknown response from server')] of [checkStatus]. *)
Theorem find_unparsable_body_not_logged :
  console (test_find garbling_server (VNum 1)).1 = [] /\
  (test_find garbling_server (VNum 1)).2 =
    Normal (Rejected (plain (Raised (VStr "SyntaxError")))) /\
  (test_find garbling_server (VNum 1)).2 <>
    Normal (Rejected (plain (JsError "unknown response from server"))).
Proof.
  split; [|split]; vm_compute; congruence.
Qed.

Lemma headers_read_at_request_time_witness :
  exists reqs,
    sent (run_call test_host empty_server test_store
            (updateHeaders test_world.1 (getBearerAuthHeader "t0k3n")
               test_world.2)
            (Find (VNum 1))).1 = (sent test_world.2 ++ reqs)%list /\
    Forall (fun r => req_headers r =
                     [("Content-Type", "application/json");
                      ("Authorizaton", "Bearer t0k3n")]) reqs /\
    (forall key, Find (VNum 1) = Find key -> length reqs = 1%nat).
Proof.
  apply (headers_read_at_request_time test_host unit empty_server
           test_world.2 test_world.1
           {| base_url := "http://127.0.0.1:8666";
              options := DEFAULT_OPTIONS;
              headers := DEFAULT_HEADERS |}
           (getBearerAuthHeader "t0k3n") test_store (Find (VNum 1)));
    reflexivity.
Defined.

(** ** More of the REST store *)

Section MoreFacts.

Variable host : Host.
Variable ServerState : Type.
Variable fetch : ServerState -> Request -> ServerState * settled error Response.


(** When the request itself fails, [find] rejects with the error of
    [fetch], without a response attached, and logs nothing. *)
Theorem find_network_failure (s : Store) (w : world ServerState) (key : val)
    (cl : Client) (sv : ServerState) (e : error) :
  clients w !! client s = Some cl ->
  fetch (server w) (getGetRequest cl (_singleResourceURI host s key)) =
    (sv, Rejected e) ->
  console (find host fetch s w key).1 = console w /\
  (find host fetch s w key).2 =
    Normal (Rejected {| err := e; err_response := None |}).
Proof.
  intros Hcl Hfetch.
  unfold find, _doGet, the_client, do_fetch. by rewrite Hcl, Hfetch.
Qed.



Lemma addSimpleField_get (m m1 : IndexMap) (index : Index) (name : string) :
  addSimpleField host m index name = Normal m1 ->
  prop_get m1 (index_name index) =
  Some (fun value => encodeURIComponent host name +:+ "=" +:+
                     encodeURIComponent host (to_string host value)).
Proof.
  unfold addSimpleField.
  destruct (prop_get m (index_name index));
    [|destruct (builtin_readonly host (function_chain m) (index_name index));
      [done|]];
    intros [= <-]; apply prop_get_set_eq.
Qed.




(** An index without encoder, of a name that the index map does not
    inherit either: [findAll] and [removeAll] throw a [TypeError] when
    they are called, whatever was registered for other indexes; no request
    is sent, nothing is logged and the index map stays as it is. *)
Theorem unregistered_index (s : Store) (w : world ServerState)
    (im : IndexMap) (index : Index) (value : val) :
  index_maps w !! index_map s = Some im ->
  prop_get im (index_name index) = None ->
  lookup_inherited host im (index_name index) = None ->
  findAll host fetch s w index value = (w, Throw TypeError) /\
  removeAll host fetch s w index value = (w, Throw TypeError).
Proof.
  intros Him Hnone Hinherited.
  unfold findAll, removeAll, _multipleResourceURI.
  by rewrite (call_encoder_missing host _ _ _ _ _ _ Him Hnone Hinherited).
Qed.

Lemma map_fromJSON_Forall2 (t : Ctor) (items vs : list val) :
  Forall2 (fun item v => fromJSON t item = Normal v) items vs ->
  map_fromJSON t items = Normal vs.
Proof.
  induction 1 as [|item v items vs Hv _ IH]; [done|].
  simpl. by rewrite Hv, IH.
Qed.

(** [findAll] on status 200 with a JSON array: the promise resolves with a
    new array holding [type.fromJSON] of each item, in order; the objects
    that exist are as they were and nothing is logged. *)
Theorem findAll_ok (s : Store) (w : world ServerState) (index : Index)
    (value : val) (cl : Client) (w0 : world ServerState) (url : string)
    (sv : ServerState)
    (response : Response) (a : loc) (items vs : list val) :
  clients w !! client s = Some cl ->
  _multipleResourceURI host s w "findAll" index value = (w0, Normal url) ->
  fetch (server w) (getGetRequest cl url) = (sv, Fulfilled response) ->
  status response = 200 ->
  json response = JsonReturns (Fulfilled (VRef a)) ->
  objects w !! a = Some (HArray items) ->
  Forall2 (fun item v => fromJSON (type s) item = Normal v) items vs ->
  exists r w1,
    findAll host fetch s w index value =
      (w1, Normal (Fulfilled (VRef r))) /\
    objects w !! r = None /\
    objects w1 !! r = Some (HArray vs) /\
    objects w ⊆ objects w1 /\
    console w1 = console w.
Proof.
  intros Hcl Hurl Hfetch Hstatus Hjson Ha Hvs.
  pose proof (_multipleResourceURI_same host _ s w "findAll" index value)
    as (Ho & Hc & Hl & _ & Hsv).
  rewrite Hurl in Ho, Hc, Hl, Hsv. simpl in Ho, Hc, Hl, Hsv.
  unfold findAll, _doGet, the_client, do_fetch.
  rewrite Hurl, Hc, Hcl, Hsv, Hfetch. simpl.
  unfold checkStatus. rewrite Hstatus, Hjson. simpl.
  rewrite Ho, Ha, (map_fromJSON_Forall2 _ _ _ Hvs). simpl.
  eexists _, _. split; [reflexivity|]. simpl.
  split; [apply not_elem_of_dom, is_fresh|].
  split; [apply lookup_insert_eq|].
  split; [|done]. apply insert_subseteq, not_elem_of_dom, is_fresh.
Qed.

(** [new Client(base_url, headers, options)]: the default headers and the
    default options per method, each overridden by name by what the caller
    gives (for a name given twice, the last value); the clients that exist
    are as they were. *)
Theorem new_Client_merge (w : world ServerState) (base : string)
    (hs : list (string * string))
    (opts : list (string * list (string * string))) :
  let c := (new_Client w base hs opts).1 in
  let w1 := (new_Client w base hs opts).2 in
  clients w !! c = None /\
  (forall c', c' <> c -> clients w1 !! c' = clients w !! c') /\
  exists cl,
    clients w1 !! c = Some cl /\
    base_url cl = base /\
    (forall name,
        prop_get (headers cl) name =
        match prop_get (rev hs) name with
        | Some v => Some v
        | None => prop_get DEFAULT_HEADERS name
        end) /\
    (forall method,
        prop_get (options cl) method =
        match prop_get (rev opts) method with
        | Some o => Some o
        | None => prop_get DEFAULT_OPTIONS method
        end).
Proof.
  simpl. split; [apply not_elem_of_dom, is_fresh|].
  split; [intros c' Hne; by rewrite lookup_insert_ne|].
  eexists. split; [apply lookup_insert_eq|]. simpl.
  split; [done|].
  split; intros name; by rewrite Object_assign_get.
Qed.


(** Without a [log] method on the logger, [remove] and [removeAll] throw
    when they are called: no request is sent.  [remove] throws a
    [TypeError] and leaves the world as it is; so does [removeAll] for an
    index that has an encoder.  For any index, [removeAll] throws what
    building the URL throws, a [TypeError] otherwise; it has by then read
    the index map, which is all it may have changed. *)
Theorem remove_without_log (s : Store) (w : world ServerState) (key : val)
    (index : Index) (value : val) :
  debug_log_defined host = false ->
  remove host fetch s w key = (w, Throw TypeError) /\
  (removeAll host fetch s w index value).2 =
    match (_multipleResourceURI host s w "removeAll" index value).2 with
    | Throw e => Throw e
    | Normal _ => Throw TypeError
    end /\
  same_but_index_maps w (removeAll host fetch s w index value).1 /\
  (forall im encode,
      index_maps w !! index_map s = Some im ->
      prop_get im (index_name index) = Some encode ->
      removeAll host fetch s w index value = (w, Throw TypeError)).
Proof.
  intros Hlog. split; [unfold remove, _doDelete; by rewrite Hlog|].
  unfold removeAll.
  pose proof (_multipleResourceURI_same host _ s w "removeAll" index value) as Hsame.
  split; [|split].
  - destruct (_multipleResourceURI host s w "removeAll" index value)
      as [w1 [url|e]]; [|done].
    unfold _doDelete. by rewrite Hlog.
  - destruct (_multipleResourceURI host s w "removeAll" index value)
      as [w1 [url|e]]; [|done].
    unfold _doDelete. by rewrite Hlog.
  - intros im encode Him Hget.
    unfold _multipleResourceURI, _doDelete.
    by rewrite (call_encoder_registered host _ _ _ _ _ _ _ Him Hget), Hlog.
Qed.


Lemma then_checkStatus_quiet (w : world ServerState)
    (p : settled error Response) :
  clients (then_checkStatus w p).1 = clients w /\
  objects (then_checkStatus w p).1 = objects w /\
  (exists lines,
      console (then_checkStatus w p).1 = (console w ++ lines)%list) /\
  sent (then_checkStatus w p).1 = sent w.
Proof.
  assert (Hnil : exists lines : list (list string),
             console w = (console w ++ lines)%list)
    by (exists []; by rewrite app_nil_r).
  unfold then_checkStatus, checkStatus. destruct p as [response|e]; [|done].
  destruct (status response =? 204)%Z; [done|].
  destruct (status response =? 200)%Z.
  - destruct (json response) as [[v|e]|e]; simpl; try done.
    repeat split. by eexists.
  - simpl. repeat split. by eexists.
Qed.

Lemma after_fetch_grows (w w3 : world ServerState) (request : Request) :
  clients w3 = clients (do_fetch fetch w request).1 ->
  objects (do_fetch fetch w request).1 ⊆ objects w3 ->
  (exists lines,
      console w3 = (console (do_fetch fetch w request).1 ++ lines)%list) ->
  sent w3 = sent (do_fetch fetch w request).1 ->
  grows w w3.
Proof.
  unfold do_fetch. destruct (fetch (server w) request) as [sv r]. simpl.
  intros Hc Ho Hl Hs. repeat split; try done.
  exists [request]. split; [done|]. simpl. lia.
Qed.

Lemma grows_refl (w : world ServerState) : grows w w.
Proof.
  repeat split; try done.
  - exists []. by rewrite app_nil_r.
  - exists []. rewrite app_nil_r. split; [done|]. simpl. lia.
Qed.

Lemma raw_call_grows (w : world ServerState) (request : Request) :
  grows w (then_checkStatus (do_fetch fetch w request).1
                            (do_fetch fetch w request).2).1.
Proof.
  destruct (then_checkStatus_quiet (do_fetch fetch w request).1
              (do_fetch fetch w request).2) as (Hc & Ho & Hl & Hs).
  apply (after_fetch_grows w _ request); try done. by rewrite Ho.
Qed.

Lemma _doGet_grows (s : Store) (w : world ServerState) (url : string)
    (resultmap :
       world ServerState -> val -> world ServerState * completion val) :
  (forall w0 v,
      clients (resultmap w0 v).1 = clients w0 /\
      objects w0 ⊆ objects (resultmap w0 v).1 /\
      console (resultmap w0 v).1 = console w0 /\
      sent (resultmap w0 v).1 = sent w0) ->
  grows w (_doGet fetch s w url resultmap).1.
Proof.
  intros Hmap. unfold _doGet.
  destruct (the_client w s) as [cl|e]; [|apply grows_refl].
  set (request := getGetRequest cl url).
  destruct (then_checkStatus_quiet (do_fetch fetch w request).1
              (do_fetch fetch w request).2) as (Hc & Ho & Hl & Hs).
  destruct (do_fetch fetch w request) as [w1 p1] eqn:Hf.
  simpl in Hc, Ho, Hl, Hs.
  destruct (then_checkStatus w1 p1) as [w2 p2]. simpl in *.
  assert (Hw1 : w1 = (do_fetch fetch w request).1) by (by rewrite Hf).
  unfold then_resultmap. destruct p2 as [body|e].
  - specialize (Hmap w2 body) as (Hc3 & Ho3 & Hl3 & Hs3).
    assert (Hg : grows w (resultmap w2 body).1).
    { apply (after_fetch_grows w _ request); rewrite <- Hw1.
      - congruence.
      - by rewrite <- Ho.
      - rewrite Hl3. exact Hl.
      - congruence. }
    by destruct (resultmap w2 body) as [w3 [v|e]].
  - simpl. apply (after_fetch_grows w _ request); rewrite <- Hw1; try done.
    by rewrite Ho.
Qed.

Lemma grows_same (w w1 w2 : world ServerState) :
  same_but_index_maps w w1 -> grows w1 w2 -> grows w w2.
Proof.
  intros (Ho & Hc & Hl & Hs & _) (Hc2 & Ho2 & Hl2 & Hs2).
  unfold grows. by rewrite <- Ho, <- Hc, <- Hl, <- Hs.
Qed.

Lemma findAll_resultmap_quiet (s : Store) (w0 : world ServerState) (v : val) :
  clients (findAll_resultmap s w0 v).1 = clients w0 /\
  objects w0 ⊆ objects (findAll_resultmap s w0 v).1 /\
  console (findAll_resultmap s w0 v).1 = console w0 /\
  sent (findAll_resultmap s w0 v).1 = sent w0.
Proof.
  unfold findAll_resultmap. destruct v as [| | | | |a]; try done.
  destruct (objects w0 !! a) as [[| items |]|]; try done.
  destruct (map_fromJSON (type s) items); [|done]. simpl.
  repeat split. apply insert_subseteq, not_elem_of_dom, is_fresh.
Qed.

(** What no operation of a store does: change a client, or an object that
    exists, or take back a logged line or a request.  An operation sends
    at most one request. *)
Theorem operations_grow (s : Store) (w : world ServerState) (op : call) :
  grows w (run_call host fetch s w op).1.
Proof.
  destruct op as [key|index value|object|key|index value|patch]; simpl.
  - unfold find. apply _doGet_grows. intros w0 v. by repeat split.
  - unfold findAll.
    pose proof (_multipleResourceURI_same host _ s w "findAll" index value) as Hsame.
    destruct (_multipleResourceURI host s w "findAll" index value)
      as [w0 [url|e]]; simpl in Hsame; apply (grows_same w w0); try done;
      [|apply grows_refl].
    apply _doGet_grows, findAll_resultmap_quiet.
  - unfold update.
    destruct (get_field (objects w) object "uid") as [uid|e];
      [|apply grows_refl].
    unfold _doPut. destruct (the_client w s) as [cl|e]; [|apply grows_refl].
    pose proof (raw_call_grows w (getPutRequest host (objects w) cl
                  (_singleResourceURI host s uid) object)) as Hg.
    revert Hg. destruct (do_fetch fetch w _) as [w1 p1]. simpl.
    by destruct (then_checkStatus w1 p1) as [w2 p2].
  - unfold remove, _doDelete.
    destruct (negb (debug_log_defined host)); [apply grows_refl|].
    destruct (the_client w s) as [cl|e]; [|apply grows_refl].
    pose proof (raw_call_grows w (getDeleteRequest cl
                  (_singleResourceURI host s key))) as Hg.
    revert Hg. destruct (do_fetch fetch w _) as [w1 p1]. simpl.
    by destruct (then_checkStatus w1 p1) as [w2 p2].
  - unfold removeAll.
    pose proof (_multipleResourceURI_same host _ s w "removeAll" index value)
      as Hsame.
    destruct (_multipleResourceURI host s w "removeAll" index value)
      as [w0 [url|e]]; simpl in Hsame; apply (grows_same w w0); try done;
      [|apply grows_refl].
    unfold _doDelete.
    destruct (negb (debug_log_defined host)); [apply grows_refl|].
    destruct (the_client w0 s) as [cl|e]; [|apply grows_refl].
    pose proof (raw_call_grows w0 (getDeleteRequest cl url)) as Hg.
    revert Hg. destruct (do_fetch fetch w0 _) as [w1 p1]. simpl.
    by destruct (then_checkStatus w1 p1) as [w2 p2].
  - unfold bulk, _doPost.
    destruct (the_client w s) as [cl|e]; [|apply grows_refl].
    pose proof (raw_call_grows w (getPostRequest host (objects w) cl
                  (_bulkResourceURI s) (toJSON patch))) as Hg.
    revert Hg. destruct (do_fetch fetch w _) as [w1 p1]. simpl.
    by destruct (then_checkStatus w1 p1) as [w2 p2].
Qed.


(** An operation either throws when it is called, and then nothing was
    sent or logged, or it returns a promise, and then exactly one request
    went to [fetch], with the client's headers.  When it throws, the world
    is as it was; [findAll] and [removeAll] have by then read the index
    map, which is all they may have changed. *)
Theorem one_request_or_throw (s : Store) (w : world ServerState)
    (cl : Client) (op : call) :
  clients w !! client s = Some cl ->
  match (run_call host fetch s w op).2 with
  | Throw _ =>
      match op with
      | FindAll _ _ | RemoveAll _ _ =>
          same_but_index_maps w (run_call host fetch s w op).1
      | _ => (run_call host fetch s w op).1 = w
      end
  | Normal _ =>
      exists request,
        sent (run_call host fetch s w op).1 = (sent w ++ [request])%list /\
        req_headers request = headers cl
  end.
Proof.
  intros Hcl.
  assert (Hget : forall w0 url resultmap,
             clients w0 !! client s = Some cl ->
             (forall w0 v, sent (resultmap w0 v).1 = sent w0) ->
             match (_doGet fetch s w0 url resultmap).2 with
             | Throw _ =>
                 _doGet fetch s w0 url resultmap = (w0, Throw TypeError)
             | Normal _ =>
                 exists request,
                   sent (_doGet fetch s w0 url resultmap).1 =
                     (sent w0 ++ [request])%list /\
                   req_headers request = headers cl
             end).
  { intros w0 url resultmap Hcl0 Hmap.
    pose proof (_doGet_sent _ fetch s w0 cl url resultmap Hcl0 Hmap) as Hs.
    revert Hs. unfold _doGet, the_client. rewrite Hcl0.
    destruct (do_fetch fetch w0 _) as [w1 p1].
    destruct (then_checkStatus w1 p1) as [w2 p2].
    destruct (then_resultmap w2 p2 resultmap) as [w3 p3]. simpl.
    intros Hs. by eexists. }
  assert (Hdel : forall w0 url,
             clients w0 !! client s = Some cl ->
             match (_doDelete host fetch s w0 url).2 with
             | Throw _ => (_doDelete host fetch s w0 url).1 = w0
             | Normal _ =>
                 exists request,
                   sent (_doDelete host fetch s w0 url).1 =
                     (sent w0 ++ [request])%list /\
                   req_headers request = headers cl
             end).
  { intros w0 url Hcl0.
    pose proof (_doDelete_sent host _ fetch s w0 cl url Hcl0) as Hs.
    revert Hs. unfold _doDelete, the_client. rewrite Hcl0.
    destruct (debug_log_defined host); simpl; [|done].
    destruct (do_fetch fetch w0 _) as [w1 p1].
    destruct (then_checkStatus w1 p1) as [w2 p2]. simpl.
    intros Hs. by eexists. }
  destruct op as [key|index value|object|key|index value|patch]; simpl.
  - unfold find.
    specialize (Hget w (_singleResourceURI host s key)
                  (fun w result => (w, fromJSON (type s) result))
                  Hcl (fun _ _ => eq_refl)).
    destruct (_doGet fetch s w _ _).2; [done|by rewrite Hget].
  - unfold findAll.
    pose proof (_multipleResourceURI_same host _ s w "findAll" index value) as Hsame.
    destruct (_multipleResourceURI host s w "findAll" index value)
      as [w0 [url|e]]; [|done].
    simpl in Hsame. destruct Hsame as (Ho & Hc & Hl & Hs & Hsv).
    rewrite <- Hc in Hcl.
    specialize (Hget w0 url (findAll_resultmap s) Hcl
                  (findAll_resultmap_sent _ s)).
    destruct (_doGet fetch s w0 _ _).2.
    + destruct Hget as (request & Hsent & Hh). exists request.
      by rewrite Hsent, Hs.
    + by rewrite Hget.
  - unfold update.
    destruct (get_field (objects w) object "uid") as [uid|e]; [|done].
    pose proof (_doPut_sent host _ fetch s w cl
                  (_singleResourceURI host s uid) object Hcl) as Hs.
    revert Hs. unfold _doPut, the_client. rewrite Hcl.
    destruct (do_fetch fetch w _) as [w1 p1].
    destruct (then_checkStatus w1 p1) as [w2 p2]. simpl.
    intros Hs. by eexists.
  - unfold remove. by apply Hdel.
  - unfold removeAll.
    pose proof (_multipleResourceURI_same host _ s w "removeAll" index value)
      as Hsame.
    destruct (_multipleResourceURI host s w "removeAll" index value)
      as [w0 [url|e]]; [|done].
    simpl in Hsame. destruct Hsame as (Ho & Hc & Hl & Hs & Hsv).
    rewrite <- Hc in Hcl. specialize (Hdel w0 url Hcl).
    destruct (_doDelete host fetch s w0 url).2.
    + destruct Hdel as (request & Hsent & Hh). exists request.
      by rewrite Hsent, Hs.
    + by rewrite Hdel.
  - unfold bulk.
    pose proof (_doPost_sent host _ fetch s w cl
                  (_bulkResourceURI s) (toJSON patch) Hcl) as Hs.
    revert Hs. unfold _doPost, the_client. rewrite Hcl.
    destruct (do_fetch fetch w _) as [w1 p1].
    destruct (then_checkStatus w1 p1) as [w2 p2]. simpl.
    intros Hs. by eexists.
Qed.

Lemma then_checkStatus_index_maps (w : world ServerState)
    (p : settled error Response) :
  index_maps (then_checkStatus w p).1 = index_maps w.
Proof.
  unfold then_checkStatus, checkStatus. destruct p as [response|e]; [|done].
  destruct (status response =? 204)%Z; [done|].
  destruct (status response =? 200)%Z; [|done].
  by destruct (json response) as [[v|e]|e].
Qed.

Lemma findAll_resultmap_index_maps (s : Store) (w : world ServerState)
    (v : val) :
  index_maps (findAll_resultmap s w v).1 = index_maps w.
Proof.
  unfold findAll_resultmap. destruct v as [| | | | |a]; try done.
  destruct (objects w !! a) as [[| items |]|]; try done.
  by destruct (map_fromJSON (type s) items).
Qed.

Lemma _doGet_index_maps (s : Store) (w : world ServerState) (url : string)
    (resultmap :
       world ServerState -> val -> world ServerState * completion val) :
  (forall w0 v, index_maps (resultmap w0 v).1 = index_maps w0) ->
  index_maps (_doGet fetch s w url resultmap).1 = index_maps w.
Proof.
  intros Hmap. unfold _doGet. destruct (the_client w s) as [cl|e]; [|done].
  unfold do_fetch. destruct (fetch (server w) _) as [sv r].
  pose proof (then_checkStatus_index_maps
                {| objects := objects w; clients := clients w;
                   index_maps := index_maps w; console := console w;
                   sent := (sent w ++ [getGetRequest cl url])%list;
                   server := sv |} r) as Hcheck.
  revert Hcheck. destruct (then_checkStatus _ r) as [w2 p2]. simpl.
  intros Hcheck. unfold then_resultmap. destruct p2 as [body|e]; [|done].
  specialize (Hmap w2 body).
  destruct (resultmap w2 body) as [w3 [v|e]]; simpl in *; congruence.
Qed.

Lemma call_encoder_addSimpleField (w : world ServerState) (m : loc)
    (im im1 : IndexMap) (value n : val) :
  index_maps w !! m = Some im ->
  prop_get im "addSimpleField" = None ->
  function_chain im = false ->
  get_field (objects w) value "name" = Normal n ->
  addSimpleField host im {| index_name := to_string host n |}
    (to_string host VUndefined) = Normal im1 ->
  call_encoder host w m "addSimpleField" value =
  (set_index_maps w (<[m := im1]> (index_maps w)),
   IndexMap_toString host (objects w) im1).
Proof.
  intros Him Hown Hchain Hn Hadd.
  unfold call_encoder, lookup_inherited, IndexMap in *.
  by rewrite Him, Hown, Hchain, Hn, Hadd.
Qed.

(** An index function named [addSimpleField] that has no encoder: the
    index map inherits a method of that name, and [findAll(index, value)]
    calls it with [value] as its index.  An encoder for the field
    [undefined] is registered in the index map of the store under the
    name [value.name], and one GET request goes to
    [base_url + endpoint + '/findAll/addSimpleField?'] followed by the
    index map as text. *)
Theorem findAll_inherited_addSimpleField (s : Store) (w : world ServerState)
    (cl : Client) (im im1 : IndexMap) (value n : val) (text : string) :
  clients w !! client s = Some cl ->
  index_maps w !! index_map s = Some im ->
  prop_get im "addSimpleField" = None ->
  function_chain im = false ->
  get_field (objects w) value "name" = Normal n ->
  addSimpleField host im {| index_name := to_string host n |}
    (to_string host VUndefined) = Normal im1 ->
  IndexMap_toString host (objects w) im1 = Normal text ->
  index_maps
    (findAll host fetch s w {| index_name := "addSimpleField" |} value).1
    !! index_map s = Some im1 /\
  prop_get im1 (to_string host n) =
    Some (fun v => encodeURIComponent host (to_string host VUndefined) +:+
                   "=" +:+ encodeURIComponent host (to_string host v)) /\
  sent (findAll host fetch s w {| index_name := "addSimpleField" |} value).1 =
  (sent w ++
   [{| req_url := base_url cl +:+ endpoint s +:+
                  "/findAll/addSimpleField?" +:+ text;
       req_init := method_options cl "GET";
       req_headers := headers cl;
       req_body := None |}])%list.
Proof.
  intros Hcl Him Hown Hchain Hn Hadd Htext.
  unfold findAll, _multipleResourceURI. simpl.
  rewrite (call_encoder_addSimpleField w _ im im1 value n Him Hown Hchain Hn
             Hadd), Htext.
  split; [|split].
  - rewrite _doGet_index_maps; [apply lookup_insert_eq|].
    apply findAll_resultmap_index_maps.
  - by apply (addSimpleField_get im im1 {| index_name := to_string host n |}).
  - erewrite _doGet_sent; [reflexivity|exact Hcl|].
    apply findAll_resultmap_sent.
Qed.

(** Without a [log] method on the logger, [removeAll] with such an index
    has registered the encoder by the time it throws. *)
Theorem removeAll_registers_before_throwing (s : Store)
    (w : world ServerState) (im im1 : IndexMap) (value n : val)
    (text : string) :
  debug_log_defined host = false ->
  index_maps w !! index_map s = Some im ->
  prop_get im "addSimpleField" = None ->
  function_chain im = false ->
  get_field (objects w) value "name" = Normal n ->
  addSimpleField host im {| index_name := to_string host n |}
    (to_string host VUndefined) = Normal im1 ->
  IndexMap_toString host (objects w) im1 = Normal text ->
  removeAll host fetch s w {| index_name := "addSimpleField" |} value =
  (set_index_maps w (<[index_map s := im1]> (index_maps w)),
   Throw TypeError).
Proof.
  intros Hlog Him Hown Hchain Hn Hadd Htext.
  unfold removeAll, _multipleResourceURI. simpl.
  rewrite (call_encoder_addSimpleField w _ im im1 value n Him Hown Hchain Hn
             Hadd), Htext.
  unfold _doDelete. by rewrite Hlog.
Qed.

End MoreFacts.



Lemma find_network_failure_witness :
  console (find test_host offline test_store doc_world (VNum 1)).1 = [] /\
  (find test_host offline test_store doc_world (VNum 1)).2 =
    Normal (Rejected {| err := Raised (VStr "TypeError: Failed to fetch");
                        err_response := None |}).
Proof.
  eapply (find_network_failure test_host unit offline test_store doc_world
            (VNum 1) test_client tt); reflexivity.
Defined.




Lemma unregistered_index_witness :
  findAll logging_host (json_server (VRef 2%positive)) test_store doc_world
    {| index_name := "byB" |} (VStr "world") = (doc_world, Throw TypeError) /\
  removeAll logging_host (json_server (VRef 2%positive)) test_store doc_world
    {| index_name := "byB" |} (VStr "world") = (doc_world, Throw TypeError).
Proof.
  eapply (unregistered_index logging_host unit (json_server (VRef 2%positive))
            test_store doc_world _ {| index_name := "byB" |} (VStr "world"));
    reflexivity.
Defined.

Lemma findAll_ok_witness :
  exists r w1,
    findAll test_host (json_server (VRef 2%positive)) test_store doc_world
      byA (VStr "hello") = (w1, Normal (Fulfilled (VRef r))) /\
    objects doc_world !! r = None /\
    objects w1 !! r = Some (HArray [VRef 1%positive]) /\
    objects doc_world ⊆ objects w1 /\
    console w1 = console doc_world.
Proof.
  eapply (findAll_ok test_host unit (json_server (VRef 2%positive))
            test_store doc_world byA (VStr "hello") test_client doc_world
            "/findAll/byA?a=hello" tt
            (json_ok "http://127.0.0.1:8666/findAll/byA?a=hello"
               (VRef 2%positive))
            2%positive [VRef 1%positive] [VRef 1%positive]);
    try reflexivity.
  by repeat constructor.
Defined.


Lemma remove_without_log_witness :
  remove test_host (status_server 204 "No Content") test_store doc_world
    (VNum 1) = (doc_world, Throw TypeError) /\
  removeAll test_host (status_server 204 "No Content") test_store doc_world
    byA (VStr "hello") = (doc_world, Throw TypeError) /\
  (removeAll test_host (status_server 204 "No Content") test_store
     doc_world shadowing (VStr "hello")).2 = Throw TypeError /\
  same_but_index_maps doc_world
    (removeAll test_host (status_server 204 "No Content") test_store
       doc_world shadowing (VStr "hello")).1.
Proof.
  destruct (remove_without_log test_host unit
              (status_server 204 "No Content") test_store doc_world (VNum 1)
              byA (VStr "hello") eq_refl) as (Hremove & _ & _ & Hregistered).
  destruct (remove_without_log test_host unit
              (status_server 204 "No Content") test_store doc_world (VNum 1)
              shadowing (VStr "hello") eq_refl) as (_ & Hthrows & Hsame & _).
  split; [exact Hremove|]. split; [eapply Hregistered; reflexivity|].
  split; [exact Hthrows|exact Hsame].
Defined.


Lemma one_request_or_throw_witness :
  exists request,
    sent (run_call test_host (status_server 204 "No Content") test_store
            doc_world (Bulk {| toJSON := VStr "[]" |})).1 =
      (sent doc_world ++ [request])%list /\
    req_headers request = [("Content-Type", "application/json")].
Proof.
  apply (one_request_or_throw test_host unit
           (status_server 204 "No Content") test_store doc_world
           test_client (Bulk {| toJSON := VStr "[]" |})).
  reflexivity.
Defined.

Lemma findAll_inherited_addSimpleField_witness :
  option_map (map fst)
    (index_maps
       (findAll test_host (json_server (VRef 2%positive)) test_store
          doc_world shadowing (VStr "hello")).1 !! INDEX_MAP) =
    Some ["byA"; "undefined"] /\
  map req_url
    (sent (findAll test_host (json_server (VRef 2%positive)) test_store
             doc_world shadowing (VStr "hello")).1) =
    ["http://127.0.0.1:8666/findAll/addSimpleField?[object Object]"] /\
  map req_url
    (sent (findAll test_host (json_server (VRef 2%positive)) test_store
             (findAll test_host (json_server (VRef 2%positive)) test_store
                doc_world shadowing (VStr "hello")).1
             {| index_name := "undefined" |} (VStr "hello")).1) =
    ["http://127.0.0.1:8666/findAll/addSimpleField?[object Object]";
     "http://127.0.0.1:8666/findAll/undefined?undefined=hello"].
Proof.
  destruct (findAll_inherited_addSimpleField test_host unit
              (json_server (VRef 2%positive)) test_store doc_world
              test_client
              [("byA", fun value => "a" +:+ "=" +:+ to_string_prim value)]
              [("byA", fun value => "a" +:+ "=" +:+ to_string_prim value);
               ("undefined",
                fun value => "undefined" +:+ "=" +:+ to_string_prim value)]
              (VStr "hello") VUndefined "[object Object]"
              eq_refl eq_refl eq_refl eq_refl eq_refl eq_refl eq_refl)
    as (Hmap & Hget & Hsent).
  split; [exact (f_equal (option_map (map fst)) Hmap)|].
  split; [exact (f_equal (map req_url) Hsent)|]. reflexivity.
Defined.

Lemma removeAll_registers_before_throwing_witness :
  (removeAll test_host (status_server 204 "No Content") test_store doc_world
     shadowing (VStr "hello")).2 = Throw TypeError /\
  option_map (map fst)
    (index_maps
       (removeAll test_host (status_server 204 "No Content") test_store
          doc_world shadowing (VStr "hello")).1 !! INDEX_MAP) =
    Some ["byA"; "undefined"] /\
  option_map (map fst) (index_maps doc_world !! INDEX_MAP) = Some ["byA"].
Proof.
  unfold shadowing.
  rewrite (removeAll_registers_before_throwing test_host unit
             (status_server 204 "No Content") test_store doc_world
             [("byA", fun value => "a" +:+ "=" +:+ to_string_prim value)]
             [("byA", fun value => "a" +:+ "=" +:+ to_string_prim value);
              ("undefined",
               fun value => "undefined" +:+ "=" +:+ to_string_prim value)]
             (VStr "hello") VUndefined "[object Object]"
             eq_refl eq_refl eq_refl eq_refl eq_refl eq_refl eq_refl).
  split; [reflexivity|]. split; reflexivity.
Defined.

End RestStoreFacts.
